(** * OS Process Manager: the process registry and its invariants

    A shallow embedding of [OS Process Manager.cpp]: the [Process] entity,
    the [ProcessManager] registry with its six public operations, and the
    command loop of [main] seen as a list of operations.

    Representation choices, all taken from the source:

    - [int] is a 32-bit signed integer.  Identifiers are kept in [Z]; the
      only arithmetic on them is [pidCounter++], whose overflow at
      [INT_MAX] is undefined behaviour in C++ and is modelled as such.
    - [std::map<int, unique_ptr<Process>>] owns every process, so it is a
      finite map from identifiers to process values.
    - A raw [Process*] always originates from [processMap[k].get()] or from
      the object about to be stored under key [k]; it is represented by
      that key.  The object exists exactly as long as the key is in the
      map, hence a pointer whose key has been erased is dangling, and
      reading through it is undefined behaviour.  [nullptr] is [None].
    - [std::queue] is a list, front first; [push] appends at the end.
      [std::stack] is a list, top first.  [std::vector] is a list.
    - [cout] is modelled by returning the text written.
    - A call either returns ([Done]), has undefined behaviour
      ([Undefined]), or exceeds the bound given to the one recursive
      function, [displayHierarchy] ([NoFuel]). *)

From stdpp Require Import gmap strings list list_numbers fin_maps pretty sorting.

Local Open Scope Z_scope.

(** ** Outcomes of a call *)

Inductive outcome (A : Type) : Type :=
  | Done (a : A)
  | Undefined
  | NoFuel.
Arguments Done {A} a.
Arguments Undefined {A}.
Arguments NoFuel {A}.

Global Instance outcome_bind : MBind outcome := λ A B k x,
  match x with
  | Done a => k a
  | Undefined => Undefined
  | NoFuel => NoFuel
  end.

(** ** Text output *)

Definition endl : string := String (Ascii.ascii_of_nat 10) EmptyString.

(** [cout << n] for an [int]. *)
Definition show_int (n : Z) : string := pretty n.

(** ** The Process entity *)

(** A [Process*], see the representation choices above. *)
Abbreviation ptr := Z.

Module Process.

Record t : Type := mk {
  pid : Z;
  name : string;
  parent : option ptr;
  children : list ptr;
  callStack : list string
}.

Definition addChild (child : ptr) (this : t) : t :=
  mk (pid this) (name this) (parent this) (children this ++ [child])
     (callStack this).

(** [callStack.push(funcName)] *)
Definition pushCall (funcName : string) (this : t) : t :=
  mk (pid this) (name this) (parent this) (children this)
     (funcName :: callStack this).

(** [children.erase(std::remove(begin, end, p), end)] *)
Definition eraseChild (p : ptr) (this : t) : t :=
  mk (pid this) (name this) (parent this)
     (filter (λ c, c ≠ p) (children this)) (callStack this).

(** The line printed for one process by [displayHierarchy] (after the
    indentation) and by [displayQueue]. *)
Definition line (this : t) : string :=
  "PID: " +:+ show_int (pid this) +:+ ", Name: " +:+ name this +:+ endl.

(** [for (auto* child : children) f(child)]: the texts written for the
    children, in order. *)
Definition concat_children (f : ptr → outcome string) (cs : list ptr)
    : outcome string :=
  foldr (λ child acc, s1 ← f child; s2 ← acc; Done (s1 +:+ s2)) (Done "") cs.

(** [displayHierarchy] recurses through the child pointers; [fuel] bounds
    the depth of the recursion. *)
Fixpoint displayHierarchy (fuel : nat) (heap : gmap Z t) (this : ptr)
    (indent : string) : outcome string :=
  match fuel with
  | O => NoFuel
  | S fuel' =>
      match heap !! this with
      | None => Undefined
      | Some p =>
          rest ← concat_children
                   (λ child, displayHierarchy fuel' heap child (indent +:+ "  "))
                   (children p);
          Done (indent +:+ line p +:+ rest)
      end
  end.

End Process.

(** ** The registry *)

Definition INT_MAX : Z := 2147483647.

Record ProcessManager : Type := mkManager {
  pidCounter : Z;
  root : option ptr;
  processMap : gmap Z Process.t;
  readyQueue : list ptr;
  ioQueue : list ptr
}.

(** The default member initialisers. *)
Definition initial : ProcessManager := mkManager 1 None ∅ [] [].

(** [pidCounter++]: the old value and the new one. *)
Definition post_increment (c : Z) : outcome (Z * Z) :=
  if decide (c = INT_MAX) then Undefined else Done (c, c + 1).

(** Reading a member through a [Process*]. *)
Definition deref (heap : gmap Z Process.t) (p : ptr) : outcome Process.t :=
  match heap !! p with
  | Some obj => Done obj
  | None => Undefined
  end.

Definition createProcess (name : string) (parentPID : Z) (m : ProcessManager)
    : outcome (ProcessManager * string) :=
  let parent : option ptr :=
    if decide (parentPID ≠ -1) then
      match processMap m !! parentPID with
      | Some _ => Some parentPID
      | None => None
      end
    else None in
  r ← post_increment (pidCounter m);
  let '(newPid, counter) := (r : Z * Z) in
  let proc := Process.mk newPid name parent [] [] in
  let rawPtr : ptr := newPid in
  let '(heap, root') :=
    match parent with
    | Some pp => (alter (Process.addChild rawPtr) pp (processMap m), root m)
    | None =>
        (processMap m,
         match root m with
         | None => Some rawPtr
         | Some r => Some r
         end)
    end in
  Done (mkManager counter root' (<[Process.pid proc := proc]> heap)
          (readyQueue m ++ [rawPtr]) (ioQueue m),
        "Created process: PID=" +:+ show_int (Process.pid proc) +:+ endl).

Definition callFunction (pid : Z) (funcName : string) (m : ProcessManager)
    : outcome (ProcessManager * string) :=
  match processMap m !! pid with
  | Some _ =>
      Done (mkManager (pidCounter m) (root m)
              (alter (Process.pushCall funcName) pid (processMap m))
              (readyQueue m) (ioQueue m),
            "Process " +:+ show_int pid +:+ " called function: "
              +:+ funcName +:+ endl)
  | None => Done (m, "Process not found." +:+ endl)
  end.

(** The [while (!readyQueue.empty())] loop of [requestIO]. *)
Fixpoint requestIO_loop (p : ptr) (readyQueue newQueue ioQueue : list ptr)
    (found : bool) : list ptr * list ptr * bool :=
  match readyQueue with
  | [] => (newQueue, ioQueue, found)
  | front :: readyQueue' =>
      if decide (front = p)
      then requestIO_loop p readyQueue' newQueue (ioQueue ++ [front]) true
      else requestIO_loop p readyQueue' (newQueue ++ [front]) ioQueue found
  end.

Definition requestIO (pid : Z) (m : ProcessManager)
    : outcome (ProcessManager * string) :=
  match processMap m !! pid with
  | Some _ =>
      let p : ptr := pid in
      let '(newQueue, ioQueue', found) :=
        requestIO_loop p (readyQueue m) [] (ioQueue m) false in
      Done (mkManager (pidCounter m) (root m) (processMap m) newQueue ioQueue',
            if found
            then "Process " +:+ show_int pid +:+ " moved to I/O queue." +:+ endl
            else "Process not in ready queue." +:+ endl)
  | None => Done (m, "Process not found." +:+ endl)
  end.

(** The [while (!ioQueue.empty())] loop of [completeIO]; it reads
    [front->pid] for every queued pointer. *)
Fixpoint completeIO_loop (heap : gmap Z Process.t) (pid : Z)
    (ioQueue newIOQueue readyQueue : list ptr) (found : bool)
    : outcome (list ptr * list ptr * bool) :=
  match ioQueue with
  | [] => Done (newIOQueue, readyQueue, found)
  | front :: ioQueue' =>
      obj ← deref heap front;
      if decide (Process.pid obj = pid)
      then completeIO_loop heap pid ioQueue' newIOQueue (readyQueue ++ [front]) true
      else completeIO_loop heap pid ioQueue' (newIOQueue ++ [front]) readyQueue found
  end.

Definition completeIO (pid : Z) (m : ProcessManager)
    : outcome (ProcessManager * string) :=
  r ← completeIO_loop (processMap m) pid (ioQueue m) [] (readyQueue m) false;
  let '(newIOQueue, readyQueue', found) := (r : list ptr * list ptr * bool) in
  Done (mkManager (pidCounter m) (root m) (processMap m) readyQueue' newIOQueue,
        if found
        then "Process " +:+ show_int pid
               +:+ " completed I/O and returned to ready queue." +:+ endl
        else "Process not found in I/O queue." +:+ endl).

Fixpoint removeFromQueue_loop (p : ptr) (q temp : list ptr) : list ptr :=
  match q with
  | [] => temp
  | current :: q' =>
      if decide (current ≠ p)
      then removeFromQueue_loop p q' (temp ++ [current])
      else removeFromQueue_loop p q' temp
  end.

Definition removeFromQueue (q : list ptr) (p : ptr) : list ptr :=
  removeFromQueue_loop p q [].

Definition terminateProcess (pid : Z) (m : ProcessManager)
    : outcome (ProcessManager * string) :=
  match processMap m !! pid with
  | None => Done (m, "Process not found." +:+ endl)
  | Some obj =>
      let p : ptr := pid in
      let readyQueue' := removeFromQueue (readyQueue m) p in
      let ioQueue' := removeFromQueue (ioQueue m) p in
      heap ←
        match Process.parent obj with
        | Some pp =>
            parentObj ← deref (processMap m) pp;
            Done (<[pp := Process.eraseChild p parentObj]> (processMap m))
        | None => Done (processMap m)
        end;
      let root' := if decide (root m = Some p) then None else root m in
      Done (mkManager (pidCounter m) root' (delete pid heap) readyQueue' ioQueue',
            "Process " +:+ show_int pid +:+ " terminated." +:+ endl)
  end.

(** The [while (!q.empty())] loop of [displayQueue]: the text written and
    what is left of [q] when the loop exits. *)
Fixpoint displayQueue_loop (heap : gmap Z Process.t) (q : list ptr)
    : outcome (list ptr * string) :=
  match q with
  | [] => Done (q, "")
  | p :: q' =>
      obj ← deref heap p;
      r ← displayQueue_loop heap q';
      Done (r.1, Process.line obj +:+ r.2)
  end.

(** [displayQueue] receives the queue by value: the loop consumes the
    parameter [q], a copy, which is dropped on return. *)
Definition displayQueue (heap : gmap Z Process.t) (q : list ptr)
    : outcome string :=
  r ← displayQueue_loop heap q;
  Done r.2.

Definition no_processes_text : string := "(No processes created yet)" +:+ endl.

Definition showState (fuel : nat) (m : ProcessManager)
    : outcome (ProcessManager * string) :=
  ready ← displayQueue (processMap m) (readyQueue m);
  io ← displayQueue (processMap m) (ioQueue m);
  tree ←
    match root m with
    | Some r => Process.displayHierarchy fuel (processMap m) r ""
    | None => Done no_processes_text
    end;
  Done (m,
        endl +:+ "--- Ready Queue ---" +:+ endl +:+ ready
        +:+ endl +:+ "--- I/O Queue ---" +:+ endl +:+ io
        +:+ endl +:+ "--- Process Tree ---" +:+ endl +:+ tree
        +:+ "--------------------" +:+ endl).

(** ** The command loop of [main] *)

Inductive Op : Type :=
  | Create (name : string) (parentPID : Z)
  | Call (pid : Z) (funcName : string)
  | RequestIO (pid : Z)
  | CompleteIO (pid : Z)
  | Terminate (pid : Z)
  | ShowState.

Definition step (fuel : nat) (op : Op) (m : ProcessManager)
    : outcome (ProcessManager * string) :=
  match op with
  | Create name parentPID => createProcess name parentPID m
  | Call pid funcName => callFunction pid funcName m
  | RequestIO pid => requestIO pid m
  | CompleteIO pid => completeIO pid m
  | Terminate pid => terminateProcess pid m
  | ShowState => showState fuel m
  end.

(** Runs the operations in order and stops at the first one that does not
    return.  The trace pairs each completed operation with its output. *)
Fixpoint run (fuel : nat) (ops : list Op) (m : ProcessManager)
    : list (Op * string) * outcome ProcessManager :=
  match ops with
  | [] => ([], Done m)
  | op :: ops' =>
      match step fuel op m with
      | Done (m', out) =>
          let '(tr, r) := run fuel ops' m' in ((op, out) :: tr, r)
      | Undefined => ([], Undefined)
      | NoFuel => ([], NoFuel)
      end
  end.

Inductive reachable : ProcessManager → Prop :=
  | reachable_initial : reachable initial
  | reachable_step fuel op m m' out :
      reachable m → step fuel op m = Done (m', out) → reachable m'.

(** ** The texts written by the operations *)

Definition moved_to_io_text (pid : Z) : string :=
  "Process " +:+ show_int pid +:+ " moved to I/O queue." +:+ endl.
Definition not_in_ready_text : string := "Process not in ready queue." +:+ endl.
Definition not_found_text : string := "Process not found." +:+ endl.
Definition completed_io_text (pid : Z) : string :=
  "Process " +:+ show_int pid
    +:+ " completed I/O and returned to ready queue." +:+ endl.
Definition not_in_io_text : string := "Process not found in I/O queue." +:+ endl.
Definition terminated_text (pid : Z) : string :=
  "Process " +:+ show_int pid +:+ " terminated." +:+ endl.
Definition created_text (pid : Z) : string :=
  "Created process: PID=" +:+ show_int pid +:+ endl.
Definition called_text (pid : Z) (funcName : string) : string :=
  "Process " +:+ show_int pid +:+ " called function: " +:+ funcName +:+ endl.

(** The layout of the report written by [showState]. *)
Definition report (ready io tree : string) : string :=
  endl +:+ "--- Ready Queue ---" +:+ endl +:+ ready
  +:+ endl +:+ "--- I/O Queue ---" +:+ endl +:+ io
  +:+ endl +:+ "--- Process Tree ---" +:+ endl +:+ tree
  +:+ "--------------------" +:+ endl.

(** ** Observing a run *)

(** The outputs of the [createProcess] calls completed in a trace. *)
Definition create_output (e : Op * string) : option string :=
  match e.1 with
  | Create _ _ => Some e.2
  | _ => None
  end.

Definition create_outputs (tr : list (Op * string)) : list string :=
  omap create_output tr.






(** ** Well-formed registries *)

Record wf (m : ProcessManager) : Prop := mk_wf {
  wf_counter : 1 ≤ pidCounter m ≤ INT_MAX;
  wf_keys : ∀ k obj, processMap m !! k = Some obj →
    Process.pid obj = k ∧ 1 ≤ k < pidCounter m;
  wf_nodup : NoDup (readyQueue m ++ ioQueue m);
  wf_queued : ∀ k, k ∈ readyQueue m ++ ioQueue m ↔ is_Some (processMap m !! k);
  wf_root : ∀ r, root m = Some r → is_Some (processMap m !! r);
  wf_children : ∀ k obj c,
    processMap m !! k = Some obj → c ∈ Process.children obj →
    k < c ∧ ∃ cobj, processMap m !! c = Some cobj ∧ Process.parent cobj = Some k;
  wf_parent : ∀ k obj pp,
    processMap m !! k = Some obj → Process.parent obj = Some pp → pp < k
}.

(** ** Auxiliary definitions for terminateProcess *)

(** The store left by [terminateProcess pid] when [obj] is the process
    stored under [pid] and its parent pointer is null or points to a live
    process. *)
Definition terminated_heap (pid : Z) (obj : Process.t)
    (heap : gmap Z Process.t) : gmap Z Process.t :=
  delete pid
    match Process.parent obj with
    | Some pp => alter (Process.eraseChild pid) pp heap
    | None => heap
    end.

Definition parent_valid (heap : gmap Z Process.t) (obj : Process.t) : Prop :=
  ∀ pp, Process.parent obj = Some pp → is_Some (heap !! pp).

(** ** Example registries *)

(** After [create("init", -1); create("child", 1); requestIO(2)]. *)
Definition example_ops : list Op :=
  [Create "init" (-1); Create "child" 1; RequestIO 2].

Definition example_state : ProcessManager :=
  mkManager 3 (Some 1)
    {[ 1 := Process.mk 1 "init" None [2] [];
       2 := Process.mk 2 "child" (Some 1) [] [] ]}
    [1] [2].

(** After [create("init", -1); create("child", 1); terminateProcess(1)]:
    process 2 is alive and its parent pointer dangles. *)
Definition orphan_ops : list Op :=
  [Create "init" (-1); Create "child" 1; Terminate 1].

Definition orphan_state : ProcessManager :=
  mkManager 3 None {[ 2 := Process.mk 2 "child" (Some 1) [] [] ]} [2] [].

(** After three creations without a parent: the ready queue is [1; 2; 3]. *)
Definition busy_ops : list Op :=
  [Create "a" (-1); Create "b" (-1); Create "c" (-1)].

Definition busy_state : ProcessManager :=
  mkManager 4 (Some 1)
    {[ 1 := Process.mk 1 "a" None [] [];
       2 := Process.mk 2 "b" None [] [];
       3 := Process.mk 3 "c" None [] [] ]}
    [1; 2; 3] [].

(** The registry in which [pidCounter] has reached [INT_MAX] and every
    process created so far has been terminated. *)
Definition exhausted_state : ProcessManager := mkManager INT_MAX None ∅ [] [].

(** ** Consistency of the parent and child links *)

(** The links kept by [addChild] in [createProcess] and by the erase in
    [terminateProcess]: the root has no parent, no child list names a
    process twice, and a live process whose parent is live is in the child
    list of that parent. *)
Record tree_wf (m : ProcessManager) : Prop := mk_tree_wf {
  tree_root : ∀ r, root m = Some r →
    ∃ obj, processMap m !! r = Some obj ∧ Process.parent obj = None;
  tree_nodup : ∀ k obj, processMap m !! k = Some obj →
    NoDup (Process.children obj);
  tree_listed : ∀ c cobj p pobj,
    processMap m !! c = Some cobj → Process.parent cobj = Some p →
    processMap m !! p = Some pobj → c ∈ Process.children pobj
}.

(** [descends heap p x]: following the parent pointers of live processes
    from [x] leads to [p]. *)
Inductive descends (heap : gmap Z Process.t) (p : Z) : Z → Prop :=
  | descends_self : descends heap p p
  | descends_child x obj y :
      heap !! x = Some obj → Process.parent obj = Some y →
      descends heap p y → descends heap p x.

(** ** The traversal made by displayHierarchy *)

(** The lists collected for the children, in order, appended. *)
Definition collect_children {A : Type} (f : Z → outcome (list A))
    (cs : list Z) : outcome (list A) :=
  foldr (λ child acc, l1 ← f child; l2 ← acc; Done (l1 ++ l2)) (Done []) cs.

(** The processes [displayHierarchy] visits from [this], in the order it
    prints them, each with its depth below the starting process: the same
    recursion as [displayHierarchy], collecting instead of printing. *)
Fixpoint preorder (fuel : nat) (heap : gmap Z Process.t) (this : Z)
    (depth : nat) : outcome (list (nat * Process.t)) :=
  match fuel with
  | O => NoFuel
  | S fuel' =>
      match heap !! this with
      | None => Undefined
      | Some p =>
          rest ← collect_children
                   (λ child, preorder fuel' heap child (S depth))
                   (Process.children p);
          Done ((depth, p) :: rest)
      end
  end.

(** The indentation at a depth: two spaces per level. *)
Fixpoint pad (depth : nat) : string :=
  match depth with
  | O => ""
  | S d => pad d +:+ "  "
  end.

(** One line per visited process, indented by its depth. *)
Definition render (l : list (nat * Process.t)) : string :=
  foldr (λ e s, pad e.1 +:+ Process.line e.2 +:+ s) "" l.

(** The identifiers of the visited processes. *)
Definition visited_pids (l : list (nat * Process.t)) : list Z :=
  (λ e, Process.pid e.2) <$> l.

(** One line per queue member, head first. *)
Definition queue_text (heap : gmap Z Process.t) (q : list Z) : string :=
  foldr (λ p s, from_option Process.line "" (heap !! p) +:+ s) "" q.

(** ** Queue updates *)

(** [l'] is [l] without some of its members, followed by members that [l]
    did not have. *)
Definition fifo_update (l l' : list Z) : Prop :=
  l' = filter (λ c, c ∈ l') l ++ filter (λ c, c ∉ l) l'.

(** A registry with a tree under the root 1, a second parentless process 5
    that was terminated, and its child 6, now an orphan. *)
Definition forest_ops : list Op :=
  [Create "a" (-1); Create "b" 1; Create "c" 1; Create "d" 2;
   Create "e" (-1); Create "f" 5; RequestIO 3; Call 4 "main"; Terminate 5].

Definition forest_state : ProcessManager :=
  mkManager 7 (Some 1)
    {[ 1 := Process.mk 1 "a" None [2; 3] [];
       2 := Process.mk 2 "b" (Some 1) [4] [];
       3 := Process.mk 3 "c" (Some 1) [] [];
       4 := Process.mk 4 "d" (Some 2) [] ["main"];
       6 := Process.mk 6 "f" (Some 5) [] [] ]}
    [1; 2; 4; 6] [3].

(** ** The loops as list operations *)

Section loops.
Implicit Types (p : ptr) (q temp : list ptr).

Lemma removeFromQueue_loop_filter p q temp :
  removeFromQueue_loop p q temp = temp ++ filter (λ c, c ≠ p) q.
Proof.
  revert temp. induction q as [|c q IH]; intros temp; simpl.
  - by rewrite app_nil_r.
  - rewrite filter_cons. destruct (decide (c ≠ p)); rewrite IH.
    + by rewrite <- app_assoc.
    + done.
Qed.

Lemma removeFromQueue_filter q p :
  removeFromQueue q p = filter (λ c, c ≠ p) q.
Proof. unfold removeFromQueue. by rewrite removeFromQueue_loop_filter. Qed.

Lemma filter_ne_absent p q : p ∉ q → filter (λ c, c ≠ p) q = q.
Proof.
  induction q as [|c q IH]; [done|]. intros Hnot.
  apply not_elem_of_cons in Hnot as [Hne Hq].
  rewrite filter_cons_True by done. by rewrite IH.
Qed.

Lemma filter_eq_absent p q : p ∉ q → filter (λ c, c = p) q = [].
Proof.
  induction q as [|c q IH]; [done|]. intros Hnot.
  apply not_elem_of_cons in Hnot as [Hne Hq].
  rewrite filter_cons_False by done. by apply IH.
Qed.

Lemma filter_ne_split p l1 l2 :
  p ∉ l1 → p ∉ l2 → filter (λ c, c ≠ p) (l1 ++ p :: l2) = l1 ++ l2.
Proof.
  intros H1 H2. rewrite filter_app, filter_cons_False by (intros ?; done).
  by rewrite !filter_ne_absent.
Qed.

Lemma filter_eq_split p l1 l2 :
  p ∉ l1 → p ∉ l2 → filter (λ c, c = p) (l1 ++ p :: l2) = [p].
Proof.
  intros H1 H2. rewrite filter_app, filter_cons_True by done.
  by rewrite !filter_eq_absent.
Qed.

Lemma NoDup_split_absent p l1 l2 : NoDup (l1 ++ p :: l2) → (p ∉ l1) ∧ (p ∉ l2).
Proof.
  intros Hnd. apply NoDup_app in Hnd as (_ & Hdisj & Hnd2).
  apply NoDup_cons in Hnd2 as [Hp2 _]. split; [|done].
  intros Hin. apply (Hdisj p Hin). left.
Qed.

Lemma requestIO_loop_filter p q newQueue io found :
  requestIO_loop p q newQueue io found
  = (newQueue ++ filter (λ c, c ≠ p) q,
     io ++ filter (λ c, c = p) q,
     found || bool_decide (p ∈ q)).
Proof.
  revert newQueue io found.
  induction q as [|c q IH]; intros newQueue io found;
    cbn [requestIO_loop].
  - rewrite filter_nil, !app_nil_r.
    rewrite bool_decide_eq_false_2 by apply not_elem_of_nil.
    by rewrite orb_false_r.
  - rewrite !filter_cons. destruct (decide (c = p)) as [->|Hne].
    + rewrite IH. destruct (decide (p ≠ p)); [done|].
      rewrite <- app_assoc. cbn [app].
      rewrite (bool_decide_eq_true_2 (p ∈ p :: q)) by apply list_elem_of_here.
      by rewrite orb_true_r.
    + rewrite IH. destruct (decide (c ≠ p)); [|done].
      rewrite <- app_assoc. cbn [app]. do 2 f_equal.
      apply bool_decide_ext. rewrite elem_of_cons.
  split; [auto|]. intros [?|?]; [congruence|done].
Qed.

Lemma completeIO_loop_filter (heap : gmap Z Process.t) pid q newIO ready found :
  (∀ c, c ∈ q → ∃ obj, heap !! c = Some obj ∧ Process.pid obj = c) →
  completeIO_loop heap pid q newIO ready found
  = Done (newIO ++ filter (λ c, c ≠ pid) q,
          ready ++ filter (λ c, c = pid) q,
          found || bool_decide (pid ∈ q)).
Proof.
  revert newIO ready found.
  induction q as [|c q IH]; intros newIO ready found Hq;
    cbn [completeIO_loop].
  - rewrite filter_nil, !app_nil_r.
    rewrite bool_decide_eq_false_2 by apply not_elem_of_nil.
    by rewrite orb_false_r.
  - destruct (Hq c) as (obj & Hobj & Hpid); [left|].
    unfold deref. rewrite Hobj. cbn [mbind outcome_bind]. rewrite Hpid.
    assert (Hq' : ∀ c', c' ∈ q → ∃ obj', heap !! c' = Some obj' ∧ Process.pid obj' = c').
    { intros c' Hc'. apply Hq. by right. }
    rewrite !filter_cons. destruct (decide (c = pid)) as [->|Hne].
    + rewrite IH by done. destruct (decide (pid ≠ pid)); [done|].
      rewrite <- app_assoc. cbn [app].
      rewrite (bool_decide_eq_true_2 (pid ∈ pid :: q)) by apply list_elem_of_here.
      by rewrite orb_true_r.
    + rewrite IH by done. destruct (decide (c ≠ pid)); [|done].
      rewrite <- app_assoc. cbn [app]. do 3 f_equal.
      apply bool_decide_ext. rewrite elem_of_cons.
  split; [auto|]. intros [?|?]; [congruence|done].
Qed.

End loops.

(** ** Closed forms of the queue-moving operations *)

Lemma requestIO_live pid m :
  is_Some (processMap m !! pid) →
  requestIO pid m
  = Done (mkManager (pidCounter m) (root m) (processMap m)
            (filter (λ c, c ≠ pid) (readyQueue m))
            (ioQueue m ++ filter (λ c, c = pid) (readyQueue m)),
          if bool_decide (pid ∈ readyQueue m)
          then moved_to_io_text pid else not_in_ready_text).
Proof.
  intros [obj Hobj]. unfold requestIO. rewrite Hobj.
  by rewrite requestIO_loop_filter.
Qed.

Lemma requestIO_absent pid m :
  processMap m !! pid = None → requestIO pid m = Done (m, not_found_text).
Proof. intros Hnone. unfold requestIO. by rewrite Hnone. Qed.

Lemma completeIO_queued pid m :
  (∀ c, c ∈ ioQueue m → ∃ obj, processMap m !! c = Some obj ∧ Process.pid obj = c) →
  completeIO pid m
  = Done (mkManager (pidCounter m) (root m) (processMap m)
            (readyQueue m ++ filter (λ c, c = pid) (ioQueue m))
            (filter (λ c, c ≠ pid) (ioQueue m)),
          if bool_decide (pid ∈ ioQueue m)
          then completed_io_text pid else not_in_io_text).
Proof.
  intros Hq. unfold completeIO. by rewrite completeIO_loop_filter.
Qed.

Lemma move_Permutation (p : Z) (a b : list Z) :
  filter (λ c, c ≠ p) a ++ (b ++ filter (λ c, c = p) a) ≡ₚ a ++ b.
Proof.
  induction a as [|c a IH]; simpl.
  - by rewrite app_nil_r.
  - rewrite !filter_cons. destruct (decide (c = p)) as [->|Hne].
    + destruct (decide (p ≠ p)); [done|].
      rewrite <- IH. by rewrite !Permutation_middle.
    + destruct (decide (c ≠ p)); [|done]. simpl. by rewrite IH.
Qed.

(** ** Preservation of well-formedness *)

Lemma wf_initial : wf initial.
Proof.
  split; simpl.
  - unfold INT_MAX. lia.
  - intros k obj Hk. by rewrite lookup_empty in Hk.
  - constructor.
  - intros k. rewrite lookup_empty. split.
    + by intros ?%elem_of_nil.
    + by intros [? ?].
  - done.
  - intros k obj c Hk. by rewrite lookup_empty in Hk.
  - intros k obj pp Hk. by rewrite lookup_empty in Hk.
Qed.

Lemma wf_queue_live m c :
  wf m → c ∈ readyQueue m ++ ioQueue m →
  ∃ obj, processMap m !! c = Some obj ∧ Process.pid obj = c.
Proof.
  intros Hwf Hc. apply (wf_queued m Hwf) in Hc as [obj Hobj].
  exists obj. split; [done|]. by apply (wf_keys m Hwf).
Qed.

Lemma wf_io_live m c :
  wf m → c ∈ ioQueue m →
  ∃ obj, processMap m !! c = Some obj ∧ Process.pid obj = c.
Proof.
  intros Hwf Hc. apply wf_queue_live; [done|]. apply elem_of_app. by right.
Qed.

Lemma wf_callFunction pid funcName m m' out :
  wf m → callFunction pid funcName m = Done (m', out) → wf m'.
Proof.
  intros Hwf. unfold callFunction.
  destruct (processMap m !! pid) as [obj|] eqn:Hobj; intros [= <- <-]; [|done].
  destruct Hwf as [Hcnt Hk Hnd Hq Hr Hch Hpa]. split; simpl; try done.
  - intros k o. rewrite lookup_alter_Some.
    intros [(<- & o' & Ho' & ->)|[_ Ho]]; [|by apply Hk].
    by apply Hk in Ho'.
  - intros k. rewrite lookup_alter_is_Some. apply Hq.
  - intros r Hroot. rewrite lookup_alter_is_Some. by apply Hr.
  - intros k o c. rewrite lookup_alter_Some.
    intros [(<- & o' & Ho' & ->)|[_ Ho]] Hc'.
    + destruct (Hch _ _ _ Ho' Hc') as (Hlt & cobj & Hcobj & Hpar).
      split; [done|]. destruct (decide (c = pid)) as [->|Hne].
      * eexists. rewrite lookup_alter_eq, Hcobj. split; [done|].
        by simplify_eq.
      * exists cobj. by rewrite lookup_alter_ne.
    + destruct (Hch _ _ _ Ho Hc') as (Hlt & cobj & Hcobj & Hpar).
      split; [done|]. destruct (decide (c = pid)) as [->|Hne].
      * eexists. rewrite lookup_alter_eq, Hcobj. split; [done|]. done.
      * exists cobj. by rewrite lookup_alter_ne.
  - intros k o pp. rewrite lookup_alter_Some.
    intros [(<- & o' & Ho' & ->)|[_ Ho]] Hpp; [|by eapply Hpa].
    apply (Hpa _ _ _ Ho' Hpp).
Qed.

Lemma back_Permutation (p : Z) (a b : list Z) :
  (a ++ filter (λ c, c = p) b) ++ filter (λ c, c ≠ p) b ≡ₚ a ++ b.
Proof.
  rewrite <- app_assoc. apply Permutation_app_head.
  pose proof (move_Permutation p b []) as Hperm.
  rewrite app_nil_l, app_nil_r in Hperm.
  etrans; [apply Permutation_app_comm|exact Hperm].
Qed.

Lemma wf_requestIO pid m m' out :
  wf m → requestIO pid m = Done (m', out) → wf m'.
Proof.
  intros Hwf.
  destruct (processMap m !! pid) as [obj|] eqn:Hobj.
  - rewrite requestIO_live by eauto. intros [= <- <-].
    destruct Hwf as [Hcnt Hk Hnd Hq Hr Hch Hpa]. split; simpl; try done.
    + by rewrite move_Permutation.
    + intros k. rewrite move_Permutation. apply Hq.
  - rewrite requestIO_absent by done. by intros [= <- <-].
Qed.

Lemma wf_completeIO pid m m' out :
  wf m → completeIO pid m = Done (m', out) → wf m'.
Proof.
  intros Hwf. rewrite completeIO_queued by (intros c; by apply wf_io_live).
  intros [= <- <-].
  destruct Hwf as [Hcnt Hk Hnd Hq Hr Hch Hpa]. split; simpl; try done.
  - by rewrite back_Permutation.
  - intros k. rewrite back_Permutation. apply Hq.
Qed.

Lemma insert_as_alter (heap : gmap Z Process.t) f i obj :
  heap !! i = Some obj → <[i := f obj]> heap = alter f i heap.
Proof.
  intros Hobj. apply map_eq. intros j. rewrite lookup_insert, lookup_alter.
  destruct (decide (i = j)) as [<-|]; [|done]. by rewrite Hobj.
Qed.

Lemma terminateProcess_live pid m obj :
  processMap m !! pid = Some obj →
  parent_valid (processMap m) obj →
  terminateProcess pid m
  = Done (mkManager (pidCounter m)
            (if decide (root m = Some pid) then None else root m)
            (terminated_heap pid obj (processMap m))
            (filter (λ c, c ≠ pid) (readyQueue m))
            (filter (λ c, c ≠ pid) (ioQueue m)),
          terminated_text pid).
Proof.
  intros Hobj Hpar. unfold terminateProcess, terminated_heap. rewrite Hobj.
  rewrite !removeFromQueue_filter.
  destruct (Process.parent obj) as [pp|] eqn:Hpp; [|done].
  destruct (Hpar pp Hpp) as [pobj Hpobj].
  unfold deref. rewrite Hpobj. cbn [mbind outcome_bind].
  by rewrite (insert_as_alter _ _ _ _ Hpobj).
Qed.

Lemma terminateProcess_dangling pid m obj pp :
  processMap m !! pid = Some obj →
  Process.parent obj = Some pp →
  processMap m !! pp = None →
  terminateProcess pid m = Undefined.
Proof.
  intros Hobj Hpp Hnone. unfold terminateProcess. rewrite Hobj, Hpp.
  unfold deref. by rewrite Hnone.
Qed.

Lemma terminateProcess_absent pid m :
  processMap m !! pid = None → terminateProcess pid m = Done (m, not_found_text).
Proof. intros Hnone. unfold terminateProcess. by rewrite Hnone. Qed.

Lemma terminateProcess_Done_inv pid m m' out obj :
  processMap m !! pid = Some obj →
  terminateProcess pid m = Done (m', out) →
  parent_valid (processMap m) obj.
Proof.
  intros Hobj Hdone pp Hpp.
  destruct (processMap m !! pp) as [pobj|] eqn:Hpobj; [eauto|].
  by rewrite (terminateProcess_dangling pid m obj pp) in Hdone.
Qed.

Lemma wf_terminateProcess pid m m' out :
  wf m → terminateProcess pid m = Done (m', out) → wf m'.
Proof.
  intros Hwf Hterm.
  destruct (processMap m !! pid) as [obj|] eqn:Hobj; cycle 1.
  { rewrite terminateProcess_absent in Hterm by done. by simplify_eq. }
  pose proof (terminateProcess_Done_inv _ _ _ _ _ Hobj Hterm) as Hpar.
  rewrite (terminateProcess_live _ _ _ Hobj Hpar) in Hterm.
  injection Hterm as <- <-.
  destruct Hwf as [Hcnt Hk Hnd Hq Hr Hch Hpa].
  assert (Hlook : ∀ k o, terminated_heap pid obj (processMap m) !! k = Some o →
    k ≠ pid ∧ ∃ o0, processMap m !! k = Some o0
      ∧ Process.pid o = Process.pid o0
      ∧ Process.parent o = Process.parent o0
      ∧ ∀ c, c ∈ Process.children o → c ≠ pid ∧ c ∈ Process.children o0).
  { intros k o. unfold terminated_heap. rewrite lookup_delete_Some.
    intros [Hne Hko]. split; [done|].
    assert (Hplain : processMap m !! k = Some o →
      ∃ o0, processMap m !! k = Some o0
        ∧ Process.pid o = Process.pid o0
        ∧ Process.parent o = Process.parent o0
        ∧ (Process.parent obj ≠ Some k →
           ∀ c, c ∈ Process.children o → c ≠ pid ∧ c ∈ Process.children o0)).
    { intros Ho. exists o. split_and!; try done.
      intros Hnp c Hc. split; [|done]. intros ->.
      destruct (Hch _ _ _ Ho Hc) as (_ & cobj & Hcobj & Hcpar). congruence. }
    destruct (Process.parent obj) as [pp|] eqn:Hpp.
    - apply lookup_alter_Some in Hko as [(<- & o0 & Ho0 & ->)|[Hppk Hko]].
      + exists o0. split_and!; try done.
        intros c Hc. by apply list_elem_of_filter in Hc.
      + destruct (Hplain Hko) as (o0 & ? & ? & ? & Hcs).
        exists o0. split_and!; try done. apply Hcs. congruence.
    - destruct (Hplain Hko) as (o0 & ? & ? & ? & Hcs).
      exists o0. split_and!; try done. by apply Hcs. }
  assert (Hkeep : ∀ k o0, k ≠ pid → processMap m !! k = Some o0 →
    ∃ o, terminated_heap pid obj (processMap m) !! k = Some o
      ∧ Process.parent o = Process.parent o0).
  { intros k o0 Hne Ho0. unfold terminated_heap. rewrite lookup_delete_ne by done.
    destruct (Process.parent obj) as [pp|]; [|eauto].
    destruct (decide (pp = k)) as [->|Hppk].
    - rewrite lookup_alter_eq, Ho0. eauto.
    - rewrite lookup_alter_ne by done. eauto. }
  split; simpl.
  - done.
  - intros k o Ho. destruct (Hlook k o Ho) as (_ & o0 & Ho0 & -> & _).
    by apply Hk.
  - rewrite <- filter_app. by apply NoDup_filter.
  - intros k. rewrite <- filter_app, list_elem_of_filter, Hq. split.
    + intros [Hne [o0 Ho0]]. destruct (Hkeep k o0 Hne Ho0) as (o & Ho & _). eauto.
    + intros [o Ho]. destruct (Hlook k o Ho) as (Hne & o0 & Ho0 & _). eauto.
  - intros r. destruct (decide (root m = Some pid)) as [Heq|Hne]; [done|].
    intros Hroot. destruct (Hr r Hroot) as [o0 Ho0].
    destruct (Hkeep r o0) as (o & Ho & _); [congruence|done|eauto].
  - intros k o c Ho Hc.
    destruct (Hlook k o Ho) as (Hne & o0 & Ho0 & _ & _ & Hcs).
    destruct (Hcs c Hc) as [Hcne Hc0].
    destruct (Hch _ _ _ Ho0 Hc0) as (Hlt & cobj & Hcobj & Hcpar).
    split; [done|].
    destruct (Hkeep c cobj Hcne Hcobj) as (cobj' & Hcobj' & Hpar').
    exists cobj'. split; [done|]. congruence.
  - intros k o pp Ho.
    destruct (Hlook k o Ho) as (_ & o0 & Ho0 & _ & -> & _). by eapply Hpa.
Qed.

Lemma createProcess_overflow name parentPID m :
  pidCounter m = INT_MAX → createProcess name parentPID m = Undefined.
Proof.
  intros Hmax. unfold createProcess, post_increment.
  rewrite (decide_True (P := pidCounter m = INT_MAX)) by done. reflexivity.
Qed.

Lemma createProcess_with_parent name parentPID m pobj :
  pidCounter m ≠ INT_MAX →
  parentPID ≠ -1 →
  processMap m !! parentPID = Some pobj →
  createProcess name parentPID m
  = Done (mkManager (pidCounter m + 1) (root m)
            (<[pidCounter m := Process.mk (pidCounter m) name (Some parentPID) [] []]>
               (alter (Process.addChild (pidCounter m)) parentPID (processMap m)))
            (readyQueue m ++ [pidCounter m]) (ioQueue m),
          created_text (pidCounter m)).
Proof.
  intros Hmax Hne Hpobj. unfold createProcess, post_increment.
  rewrite (decide_False (P := pidCounter m = INT_MAX)) by done.
  rewrite (decide_True (P := parentPID ≠ -1)) by done.
  rewrite Hpobj. reflexivity.
Qed.

Lemma createProcess_orphan name parentPID m :
  pidCounter m ≠ INT_MAX →
  parentPID = -1 ∨ processMap m !! parentPID = None →
  createProcess name parentPID m
  = Done (mkManager (pidCounter m + 1)
            (match root m with None => Some (pidCounter m) | Some r => Some r end)
            (<[pidCounter m := Process.mk (pidCounter m) name None [] []]>
               (processMap m))
            (readyQueue m ++ [pidCounter m]) (ioQueue m),
          created_text (pidCounter m)).
Proof.
  intros Hmax Hor. unfold createProcess, post_increment.
  rewrite (decide_False (P := pidCounter m = INT_MAX)) by done.
  destruct (decide (parentPID ≠ -1)) as [Hne|Heq]; [|reflexivity].
  destruct Hor as [->|Hnone]; [done|]. rewrite Hnone. reflexivity.
Qed.

Lemma createProcess_Done_inv name parentPID m m' out :
  createProcess name parentPID m = Done (m', out) → pidCounter m ≠ INT_MAX.
Proof.
  intros Hdone Hmax. by rewrite createProcess_overflow in Hdone.
Qed.

Lemma wf_fresh m : wf m → processMap m !! pidCounter m = None.
Proof.
  intros Hwf. destruct (processMap m !! pidCounter m) as [obj|] eqn:Hobj; [|done].
  apply (wf_keys m Hwf) in Hobj. lia.
Qed.

Lemma wf_fresh_queue m : wf m → pidCounter m ∉ readyQueue m ++ ioQueue m.
Proof.
  intros Hwf Hin. apply (wf_queued m Hwf) in Hin as [obj Hobj].
  by rewrite wf_fresh in Hobj.
Qed.

Lemma push_Permutation (c : Z) (a b : list Z) : (a ++ [c]) ++ b ≡ₚ c :: a ++ b.
Proof. rewrite <- app_assoc. simpl. by rewrite Permutation_middle. Qed.

Lemma wf_createProcess name parentPID m m' out :
  wf m → createProcess name parentPID m = Done (m', out) → wf m'.
Proof.
  intros Hwf Hcreate.
  pose proof (createProcess_Done_inv _ _ _ _ _ Hcreate) as Hmax.
  pose proof (wf_fresh m Hwf) as Hfresh.
  pose proof (wf_fresh_queue m Hwf) as Hfreshq.
  destruct Hwf as [Hcnt Hk Hnd Hq Hr Hch Hpa].
  destruct (processMap m !! parentPID) as [pobj|] eqn:Hpobj.
  - (* the parent is found *)
    assert (Hm1 : parentPID ≠ -1).
    { intros ->. apply Hk in Hpobj. lia. }
    rewrite (createProcess_with_parent _ _ _ pobj) in Hcreate by auto.
    injection Hcreate as <- <-.
    assert (Hppc : parentPID ≠ pidCounter m) by congruence.
    split; simpl.
    + lia.
    + intros k o. rewrite lookup_insert_Some.
      intros [[<- <-]|[Hne Ho]]; [simpl; lia|].
      apply lookup_alter_Some in Ho as [(<- & o0 & Ho0 & ->)|[_ Ho]].
      * apply Hk in Ho0. simpl. lia.
      * apply Hk in Ho. lia.
    + rewrite push_Permutation. by apply NoDup_cons.
    + intros k. rewrite push_Permutation, elem_of_cons, Hq.
      rewrite lookup_insert_is_Some, lookup_alter_is_Some.
      split; [intros [->|?]|intros [->|[? ?]]]; auto.
      destruct (decide (pidCounter m = k)); auto.
    + intros r Hroot. rewrite lookup_insert_is_Some, lookup_alter_is_Some.
      destruct (decide (pidCounter m = r)); auto.
    + intros k o c. rewrite lookup_insert_Some.
      intros [[<- <-]|[Hne Ho]] Hc; [by apply elem_of_nil in Hc|].
      assert (Hold : ∀ k0 o0, processMap m !! k0 = Some o0 →
        c ∈ Process.children o0 →
        k0 < c ∧ ∃ cobj,
          <[pidCounter m := Process.mk (pidCounter m) name (Some parentPID) [] []]>
            (alter (Process.addChild (pidCounter m)) parentPID (processMap m))
            !! c = Some cobj
          ∧ Process.parent cobj = Some k0).
      { intros k0 o0 Ho0 Hc0.
        destruct (Hch _ _ _ Ho0 Hc0) as (Hlt & cobj & Hcobj & Hcpar).
        split; [done|].
        rewrite lookup_insert_ne by (intros <-; congruence).
        destruct (decide (parentPID = c)) as [<-|Hpc].
        - rewrite lookup_alter_eq, Hcobj. eexists. split; [done|]. done.
        - rewrite lookup_alter_ne by done. eauto. }
      apply lookup_alter_Some in Ho as [(<- & o0 & Ho0 & ->)|[_ Ho]];
        [|by eapply Hold].
      simpl in Hc. apply elem_of_app in Hc as [Hc|Hc]; [by eapply Hold|].
      apply list_elem_of_singleton in Hc as ->.
      split; [apply Hk in Ho0; lia|].
      rewrite lookup_insert_eq. eauto.
    + intros k o pp. rewrite lookup_insert_Some.
      intros [[<- <-]|[Hne Ho]].
      * simpl. intros [= <-]. apply Hk in Hpobj. lia.
      * apply lookup_alter_Some in Ho as [(<- & o0 & Ho0 & ->)|[_ Ho]];
          intros Hpp; [apply (Hpa _ _ _ Ho0 Hpp)|by eapply Hpa].
  - (* no parent is resolved *)
    rewrite createProcess_orphan in Hcreate by auto.
    injection Hcreate as <- <-. split; simpl.
    + lia.
    + intros k o. rewrite lookup_insert_Some.
      intros [[<- <-]|[Hne Ho]]; [simpl; lia|].
      apply Hk in Ho. lia.
    + rewrite push_Permutation. by apply NoDup_cons.
    + intros k. rewrite push_Permutation, elem_of_cons, Hq.
      rewrite lookup_insert_is_Some. split; [intros [->|?]|intros [->|[? ?]]]; auto.
      destruct (decide (pidCounter m = k)); auto.
    + intros r Hroot. rewrite lookup_insert_is_Some.
      destruct (root m) as [r0|] eqn:Hr0.
      * injection Hroot as <-. destruct (decide (pidCounter m = r0)); auto.
      * injection Hroot as <-. auto.
    + intros k o c. rewrite lookup_insert_Some.
      intros [[<- <-]|[Hne Ho]] Hc; [by apply elem_of_nil in Hc|].
      destruct (Hch _ _ _ Ho Hc) as (Hlt & cobj & Hcobj & Hcpar).
      split; [done|]. exists cobj. split; [|done].
      rewrite lookup_insert_ne; [done|]. intros <-. congruence.
    + intros k o pp. rewrite lookup_insert_Some.
      intros [[<- <-]|[Hne Ho]]; [done|]. by eapply Hpa.
Qed.

Lemma showState_state fuel m m' out :
  showState fuel m = Done (m', out) → m' = m.
Proof.
  unfold showState.
  destruct (displayQueue _ (readyQueue m)) as [ready| |]; [|done..].
  destruct (displayQueue _ (ioQueue m)) as [io| |]; [|done..].
  cbn [mbind outcome_bind].
  destruct (match root m with Some r => _ | None => _ end) as [tree| |];
    [|done..].
  cbn [mbind outcome_bind]. by intros [= <- _].
Qed.

Lemma wf_step fuel op m m' out :
  wf m → step fuel op m = Done (m', out) → wf m'.
Proof.
  intros Hwf. destruct op; simpl.
  - by apply wf_createProcess.
  - by apply wf_callFunction.
  - by apply wf_requestIO.
  - by apply wf_completeIO.
  - by apply wf_terminateProcess.
  - intros Hshow. by rewrite (showState_state _ _ _ _ Hshow).
Qed.

Lemma reachable_wf m : reachable m → wf m.
Proof.
  induction 1 as [|fuel op m m' out _ IH Hstep]; [apply wf_initial|].
  by eapply wf_step.
Qed.

(** X1: every pointer kept in a queue, in [root] or in a child list of a live
    process points to a live process; only [parent] pointers can dangle. *)
Lemma reachable_pointers_live m :
  reachable m →
  (∀ p, p ∈ readyQueue m ++ ioQueue m → is_Some (processMap m !! p))
  ∧ (∀ r, root m = Some r → is_Some (processMap m !! r))
  ∧ (∀ k obj c, processMap m !! k = Some obj → c ∈ Process.children obj →
       is_Some (processMap m !! c)).
Proof.
  intros Hwf%reachable_wf. split_and!.
  - intros p. apply (wf_queued m Hwf).
  - apply (wf_root m Hwf).
  - intros k obj c Hobj Hc.
    destruct (wf_children m Hwf k obj c Hobj Hc) as (_ & cobj & Hcobj & _).
    eauto.
Qed.

Lemma run_reachable fuel ops m tr m' :
  reachable m → run fuel ops m = (tr, Done m') → reachable m'.
Proof.
  revert m tr. induction ops as [|op ops IH]; intros m tr Hm; simpl.
  - by intros [= _ <-].
  - destruct (step fuel op m) as [[m1 out]| |] eqn:Hstep; [|done..].
    destruct (run fuel ops m1) as [tr1 r1] eqn:Hrun. intros [= _ ->].
    eapply IH; [|done]. by eapply reachable_step.
Qed.

(** ** Display functions return in well-formed registries *)

Section display.
Context (heap : gmap Z Process.t).

Lemma concat_children_ext f g cs r :
  (∀ c s, c ∈ cs → f c = Done s → g c = Done s) →
  Process.concat_children f cs = Done r → Process.concat_children g cs = Done r.
Proof.
  revert r. induction cs as [|c cs IH]; intros r Hfg; [done|].
  unfold Process.concat_children. cbn [foldr]. fold (Process.concat_children f cs).
  fold (Process.concat_children g cs).
  destruct (f c) as [s1| |] eqn:Hfc; [|done..].
  rewrite (Hfg c s1) by (done || apply list_elem_of_here).
  cbn [mbind outcome_bind].
  destruct (Process.concat_children f cs) as [s2| |] eqn:Hrest; [|done..].
  rewrite (IH s2); [done| |done].
  intros c' s Hc'. apply Hfg. by apply list_elem_of_further.
Qed.

Lemma concat_children_total f cs :
  (∀ c, c ∈ cs → ∃ s, f c = Done s) → ∃ r, Process.concat_children f cs = Done r.
Proof.
  induction cs as [|c cs IH]; intros Hf; [by exists ""|].
  destruct (Hf c) as [s1 Hs1]; [apply list_elem_of_here|].
  destruct IH as [s2 Hs2].
  { intros c' Hc'. apply Hf. by apply list_elem_of_further. }
  exists (s1 +:+ s2). unfold Process.concat_children. cbn [foldr].
  fold (Process.concat_children f cs). by rewrite Hs1, Hs2.
Qed.

Lemma displayHierarchy_unfold fuel p indent :
  Process.displayHierarchy (S fuel) heap p indent
  = match heap !! p with
    | None => Undefined
    | Some obj =>
        rest ← Process.concat_children
                 (λ c, Process.displayHierarchy fuel heap c (indent +:+ "  "))
                 (Process.children obj);
        Done (indent +:+ Process.line obj +:+ rest)
    end.
Proof. reflexivity. Qed.

Lemma displayHierarchy_mono fuel fuel' p indent s :
  (fuel ≤ fuel')%nat →
  Process.displayHierarchy fuel heap p indent = Done s →
  Process.displayHierarchy fuel' heap p indent = Done s.
Proof.
  revert fuel' p indent s.
  induction fuel as [|fuel IH]; intros fuel' p indent s Hle; [done|].
  destruct fuel' as [|fuel']; [lia|]. rewrite !displayHierarchy_unfold.
  destruct (heap !! p) as [obj|]; [|done].
  destruct (Process.concat_children _ (Process.children obj)) as [rest| |] eqn:Hrest;
    [|done..].
  erewrite concat_children_ext; [done| |exact Hrest].
  intros c s' _. apply IH. lia.
Qed.

Lemma displayQueue_total q :
  (∀ c, c ∈ q → is_Some (heap !! c)) → ∃ s, displayQueue heap q = Done s.
Proof.
  induction q as [|c q IH]; intros Hq; [by exists ""|].
  destruct (Hq c) as [obj Hobj]; [apply list_elem_of_here|].
  destruct IH as [rest Hrest].
  { intros c' Hc'. apply Hq. by apply list_elem_of_further. }
  exists (Process.line obj +:+ rest). unfold displayQueue in *.
  cbn [displayQueue_loop]. unfold deref. rewrite Hobj. cbn [mbind outcome_bind].
  destruct (displayQueue_loop heap q) as [[q1 s1]| |]; [|done..].
  by simplify_eq/=.
Qed.

Lemma displayQueue_loop_drains q q1 s :
  displayQueue_loop heap q = Done (q1, s) → q1 = [].
Proof.
  revert q1 s. induction q as [|c q IH]; intros q1 s; cbn [displayQueue_loop].
  - by intros [= <- _].
  - destruct (deref heap c) as [obj| |]; [|done..]. cbn [mbind outcome_bind].
    destruct (displayQueue_loop heap q) as [[q2 s2]| |]; [|done..].
    intros [= <- _]. by eapply IH.
Qed.

Context (bound : Z).
Hypothesis keys_below : ∀ k, is_Some (heap !! k) → k < bound.
Hypothesis children_above : ∀ k obj c,
  heap !! k = Some obj → c ∈ Process.children obj →
  k < c ∧ is_Some (heap !! c).

Lemma displayHierarchy_total fuel p indent :
  is_Some (heap !! p) →
  (Z.to_nat (bound - p) ≤ fuel)%nat →
  ∃ s, Process.displayHierarchy fuel heap p indent = Done s.
Proof.
  revert p indent.
  induction fuel as [|fuel IH]; intros p indent Hp Hfuel.
  - apply keys_below in Hp. lia.
  - rewrite displayHierarchy_unfold. destruct Hp as [obj Hobj]. rewrite Hobj.
    destruct (concat_children_total
      (λ c, Process.displayHierarchy fuel heap c (indent +:+ "  "))
      (Process.children obj)) as [rest Hrest].
    { intros c Hc. destruct (children_above _ _ _ Hobj Hc) as [Hlt Hlive].
      apply IH; [done|]. lia. }
    rewrite Hrest. by eexists.
Qed.

End display.

(** ** The example registries are reachable *)

(** Reachability of a concrete registry, by running the operations. *)
Ltac reach_by ops :=
  eapply (run_reachable 0 ops); [apply reachable_initial|];
  vm_compute; reflexivity.

Lemma example_state_reachable : reachable example_state.
Proof. reach_by example_ops. Qed.

Lemma orphan_state_reachable : reachable orphan_state.
Proof. reach_by orphan_ops. Qed.

Lemma busy_state_reachable : reachable busy_state.
Proof. reach_by busy_ops. Qed.

(** ** The queue invariant *)

(** C1: in every reachable registry, a live process (one in the canonical
    store) is in exactly one of the ready queue and the I/O queue, a process
    that is not in the store is in neither, and no queue holds a process
    twice. *)
Theorem queue_partition_invariant m pid :
  reachable m →
  (is_Some (processMap m !! pid) →
     (pid ∈ readyQueue m ∧ pid ∉ ioQueue m)
     ∨ ((pid ∉ readyQueue m) ∧ pid ∈ ioQueue m))
  ∧ (processMap m !! pid = None → (pid ∉ readyQueue m) ∧ (pid ∉ ioQueue m))
  ∧ NoDup (readyQueue m) ∧ NoDup (ioQueue m).
Proof.
  intros Hreach. apply reachable_wf in Hreach.
  destruct Hreach as [_ _ Hnd Hq _ _ _].
  apply NoDup_app in Hnd as (Hndr & Hdisj & Hndi).
  split_and!; try done.
  - intros Hlive. apply Hq in Hlive. apply elem_of_app in Hlive as [Hr|Hi].
    + left. split; [done|]. by apply Hdisj.
    + right. split; [|done]. intros Hr. by apply (Hdisj pid).
  - intros Hnone. rewrite <- not_elem_of_app. rewrite Hq, Hnone.
    by intros [? ?].
Qed.

Lemma queue_partition_invariant_witness :
  reachable example_state
  ∧ ((is_Some (processMap example_state !! 2) →
       (2 ∈ readyQueue example_state ∧ 2 ∉ ioQueue example_state)
       ∨ ((2 ∉ readyQueue example_state) ∧ 2 ∈ ioQueue example_state))
     ∧ (processMap example_state !! 2 = None →
        (2 ∉ readyQueue example_state) ∧ (2 ∉ ioQueue example_state))
     ∧ NoDup (readyQueue example_state) ∧ NoDup (ioQueue example_state)).
Proof.
  split; [apply example_state_reachable|].
  apply (queue_partition_invariant example_state 2).
  apply example_state_reachable.
Defined.

(** ** Termination of a process whose parent is gone *)

(** C2: terminating a child after its parent reads the child list of the
    destroyed parent through the child's stale parent pointer.  In the run
    [create init; create child of 1; terminate 1; terminate 2] the first
    three operations return and the fourth has undefined behaviour. *)
Theorem terminate_after_parent_undefined :
  run 0 [Create "init" (-1); Create "child" 1; Terminate 1; Terminate 2]
    initial
  = ([(Create "init" (-1), created_text 1);
      (Create "child" 1, created_text 2);
      (Terminate 1, terminated_text 1)],
     Undefined).
Proof. vm_compute. reflexivity. Qed.

(** C3: in the reachable registry where process 2 is alive and its parent 1
    has been terminated, [terminateProcess 2] is undefined instead of
    removing the process. *)
Theorem terminate_live_orphan_undefined :
  reachable orphan_state
  ∧ is_Some (processMap orphan_state !! 2)
  ∧ terminateProcess 2 orphan_state = Undefined.
Proof.
  split_and!.
  - apply orphan_state_reachable.
  - by eexists.
  - vm_compute. reflexivity.
Qed.

(** ** createProcess *)

Lemma reachable_counter (n : nat) :
  1 + Z.of_nat n ≤ INT_MAX →
  reachable (mkManager (1 + Z.of_nat n) None ∅ [] []).
Proof.
  induction n as [|n IH]; intros Hle; [apply reachable_initial|].
  set (c := 1 + Z.of_nat n).
  assert (Hc : c ≠ INT_MAX) by lia.
  set (m0 := mkManager c None ∅ [] []).
  set (proc := Process.mk c "p" None [] []).
  set (m1 := mkManager (c + 1) (Some c) (<[c := proc]> ∅) [c] []).
  assert (Hm0 : reachable m0) by (apply IH; lia).
  assert (Hm1 : reachable m1).
  { apply (reachable_step 0 (Create "p" (-1)) m0 m1 (created_text c) Hm0).
    simpl. rewrite createProcess_orphan by auto. reflexivity. }
  apply (reachable_step 0 (Terminate c) m1 _ (terminated_text c) Hm1).
  simpl. rewrite (terminateProcess_live c m1 proc).
  - unfold terminated_heap. simpl. rewrite decide_True by done.
    rewrite delete_insert_eq, delete_empty.
    rewrite !filter_cons_False by (intros ?; done). rewrite !filter_nil.
    do 3 f_equal. lia.
  - simpl. apply lookup_insert_eq.
  - intros pp Hpp. done.
Qed.

Lemma exhausted_state_reachable : reachable exhausted_state.
Proof.
  assert (Heq : INT_MAX = 1 + Z.of_nat (Z.to_nat (INT_MAX - 1))).
  { unfold INT_MAX. lia. }
  unfold exhausted_state. rewrite Heq at 1. apply reachable_counter.
  rewrite <- Heq. lia.
Qed.

(** C4, as stated, fails: once 2147483646 processes have been created the
    counter equals [INT_MAX], and the next [createProcess] overflows it. *)
Lemma createProcess_not_total :
  reachable exhausted_state
  ∧ createProcess "p" (-1) exhausted_state = Undefined.
Proof.
  split; [apply exhausted_state_reachable|].
  by apply createProcess_overflow.
Qed.

(** C4, amended: in every reachable registry whose counter is below
    [INT_MAX], [createProcess] returns.  The new identifier is the value of
    the counter; it is not a key of the store; the counter advances by one;
    the new process is appended to the ready queue and the I/O queue is
    untouched; the identifier is reported.  If [parentPID] is a key of the
    store, the new process gets that parent, is appended to the parent's
    children, and the root is unchanged.  Otherwise it gets no parent, no
    other process changes, and it becomes the root when there is none.  It
    becomes the root exactly when there is no root and no parent was
    resolved. *)
Theorem createProcess_spec name parentPID m :
  reachable m →
  pidCounter m < INT_MAX →
  ∃ m',
    createProcess name parentPID m = Done (m', created_text (pidCounter m))
    ∧ processMap m !! pidCounter m = None
    ∧ pidCounter m' = pidCounter m + 1
    ∧ readyQueue m' = readyQueue m ++ [pidCounter m]
    ∧ ioQueue m' = ioQueue m
    ∧ (∀ pobj, processMap m !! parentPID = Some pobj →
         processMap m'
         = <[pidCounter m :=
               Process.mk (pidCounter m) name (Some parentPID) [] []]>
             (<[parentPID :=
                  Process.mk (Process.pid pobj) (Process.name pobj)
                    (Process.parent pobj)
                    (Process.children pobj ++ [pidCounter m])
                    (Process.callStack pobj)]> (processMap m))
         ∧ root m' = root m)
    ∧ (processMap m !! parentPID = None →
         processMap m'
         = <[pidCounter m := Process.mk (pidCounter m) name None [] []]>
             (processMap m)
         ∧ root m' = match root m with
                     | None => Some (pidCounter m)
                     | Some r => Some r
                     end)
    ∧ (root m' = Some (pidCounter m)
       ↔ root m = None ∧ processMap m !! parentPID = None).
Proof.
  intros Hreach Hlt. apply reachable_wf in Hreach as Hwf.
  assert (Hmax : pidCounter m ≠ INT_MAX) by lia.
  pose proof (wf_fresh m Hwf) as Hfresh.
  assert (Hroot : root m ≠ Some (pidCounter m)).
  { intros Hr. apply (wf_root m Hwf) in Hr as [o Ho]. congruence. }
  destruct (processMap m !! parentPID) as [pobj|] eqn:Hpobj.
  - assert (Hne : parentPID ≠ -1).
    { intros ->. apply (wf_keys m Hwf) in Hpobj. lia. }
    rewrite (createProcess_with_parent _ _ _ pobj) by done.
    eexists. split; [reflexivity|]. simpl. split_and!; try done.
    + intros ? [= <-]. split; [|done].
      by rewrite <- (insert_as_alter _ (Process.addChild (pidCounter m))
                       _ _ Hpobj).
    + split; [done|]. by intros [_ ?].
  - rewrite createProcess_orphan by auto.
    eexists. split; [reflexivity|]. simpl. split_and!; try done.
    destruct (root m); split; try done; try by intros [? _].
Qed.

Lemma createProcess_spec_witness :
  reachable example_state
  ∧ pidCounter example_state < INT_MAX
  ∧ ∃ m',
      createProcess "worker" 2 example_state = Done (m', created_text 3)
      ∧ processMap m' !! 3 = Some (Process.mk 3 "worker" (Some 2) [] [])
      ∧ processMap m' !! 2 = Some (Process.mk 2 "child" (Some 1) [3] [])
      ∧ readyQueue m' = [1; 3]
      ∧ root m' = Some 1.
Proof.
  split; [apply example_state_reachable|]. split; [done|].
  destruct (createProcess_spec "worker" 2 example_state)
    as (m' & Hrun & _ & _ & Hready & _ & Hfound & _);
    [apply example_state_reachable|done|].
  exists m'. split; [exact Hrun|].
  destruct (Hfound (Process.mk 2 "child" (Some 1) [] [])) as [Hmap Hroot];
    [reflexivity|].
  rewrite Hmap, Hready, Hroot. split_and!; reflexivity.
Defined.

(** ** requestIO and completeIO *)

Lemma requestIO_ready m pid l1 l2 :
  wf m → readyQueue m = l1 ++ pid :: l2 →
  requestIO pid m
  = Done (mkManager (pidCounter m) (root m) (processMap m)
            (l1 ++ l2) (ioQueue m ++ [pid]),
          moved_to_io_text pid).
Proof.
  intros Hwf Hsplit.
  assert (Hin : pid ∈ readyQueue m).
  { rewrite Hsplit. apply elem_of_app. right. apply list_elem_of_here. }
  assert (Hlive : is_Some (processMap m !! pid)).
  { apply (wf_queued m Hwf), elem_of_app. by left. }
  rewrite requestIO_live by done.
  rewrite bool_decide_eq_true_2 by done.
  pose proof (wf_nodup m Hwf) as Hnd. apply NoDup_app in Hnd as [Hnd _].
  rewrite Hsplit in Hnd. apply NoDup_split_absent in Hnd as [H1 H2].
  rewrite Hsplit. by rewrite filter_ne_split, filter_eq_split.
Qed.

Lemma completeIO_waiting m pid l1 l2 :
  wf m → ioQueue m = l1 ++ pid :: l2 →
  completeIO pid m
  = Done (mkManager (pidCounter m) (root m) (processMap m)
            (readyQueue m ++ [pid]) (l1 ++ l2),
          completed_io_text pid).
Proof.
  intros Hwf Hsplit.
  assert (Hin : pid ∈ ioQueue m).
  { rewrite Hsplit. apply elem_of_app. right. apply list_elem_of_here. }
  rewrite completeIO_queued by (intros c; by apply wf_io_live).
  rewrite bool_decide_eq_true_2 by done.
  pose proof (wf_nodup m Hwf) as Hnd.
  apply NoDup_app in Hnd as (_ & _ & Hnd).
  rewrite Hsplit in Hnd. apply NoDup_split_absent in Hnd as [H1 H2].
  rewrite Hsplit. by rewrite filter_ne_split, filter_eq_split.
Qed.

Lemma moved_to_tail_differs (pid : Z) (l1 l2 : list Z) :
  pid ∉ l2 → l2 ≠ [] → l1 ++ l2 ++ [pid] ≠ l1 ++ pid :: l2.
Proof.
  intros Hnot Hne Heq. apply app_inv_head in Heq.
  destruct l2 as [|x l2]; [done|]. injection Heq as -> _.
  apply Hnot, list_elem_of_here.
Qed.

(** C5: in a reachable registry [requestIO pid] does exactly one of three
    things.  If [pid] is in the ready queue, it is taken out (the other
    members keep their order), appended to the I/O queue, and success is
    reported.  If [pid] is in the store but not in the ready queue, "not in
    ready queue" is reported and the registry is unchanged.  If [pid] is not
    in the store, "not found" is reported and the registry is unchanged.
    A member of the ready queue is always in the store, so the three
    conditions exclude each other and cover every case. *)
Theorem requestIO_spec m pid :
  reachable m →
  (∀ l1 l2, readyQueue m = l1 ++ pid :: l2 →
     requestIO pid m
     = Done (mkManager (pidCounter m) (root m) (processMap m)
               (l1 ++ l2) (ioQueue m ++ [pid]),
             moved_to_io_text pid))
  ∧ (is_Some (processMap m !! pid) → pid ∉ readyQueue m →
     requestIO pid m = Done (m, not_in_ready_text))
  ∧ (processMap m !! pid = None →
     requestIO pid m = Done (m, not_found_text))
  ∧ (pid ∈ readyQueue m → is_Some (processMap m !! pid)).
Proof.
  intros Hreach. apply reachable_wf in Hreach as Hwf.
  split_and!.
  - intros l1 l2. by apply requestIO_ready.
  - intros Hsome Hnot. rewrite requestIO_live by done.
    rewrite bool_decide_eq_false_2 by done.
    rewrite filter_ne_absent, filter_eq_absent, app_nil_r by done.
    by destruct m.
  - apply requestIO_absent.
  - intros Hin. apply (wf_queued m Hwf), elem_of_app. by left.
Qed.

Lemma requestIO_spec_witness :
  reachable example_state
  ∧ requestIO 1 example_state
    = Done (mkManager 3 (Some 1) (processMap example_state) [] [2; 1],
            moved_to_io_text 1)
  ∧ requestIO 2 example_state = Done (example_state, not_in_ready_text)
  ∧ requestIO 7 example_state = Done (example_state, not_found_text).
Proof.
  pose proof (requestIO_spec example_state 1 example_state_reachable)
    as (Hmove & _).
  pose proof (requestIO_spec example_state 2 example_state_reachable)
    as (_ & Hstay & _).
  pose proof (requestIO_spec example_state 7 example_state_reachable)
    as (_ & _ & Habsent & _).
  split_and!.
  - apply example_state_reachable.
  - apply (Hmove [] []). reflexivity.
  - apply Hstay; [by eexists|].
    intros Hin. apply list_elem_of_singleton in Hin. discriminate.
  - apply Habsent. reflexivity.
Defined.

(** C6: in a reachable registry, if [pid] is in the I/O queue,
    [completeIO pid] takes it out (the other members keep their order),
    appends it to the ready queue and reports success.  If [pid] is not in
    the I/O queue, whether or not it is in the store, the one message "not
    found in I/O queue" is reported and the registry is unchanged.  Hence
    [requestIO pid] followed by [completeIO pid] on a member of the ready
    queue restores the I/O queue and leaves [pid] at the tail of the ready
    queue, behind the members that followed it; when there is such a member
    the ready queue is not in its original order. *)
Theorem completeIO_spec m pid :
  reachable m →
  (∀ l1 l2, ioQueue m = l1 ++ pid :: l2 →
     completeIO pid m
     = Done (mkManager (pidCounter m) (root m) (processMap m)
               (readyQueue m ++ [pid]) (l1 ++ l2),
             completed_io_text pid))
  ∧ (pid ∉ ioQueue m → completeIO pid m = Done (m, not_in_io_text))
  ∧ (∀ l1 l2, readyQueue m = l1 ++ pid :: l2 →
     (∃ m1,
        requestIO pid m = Done (m1, moved_to_io_text pid)
        ∧ completeIO pid m1
          = Done (mkManager (pidCounter m) (root m) (processMap m)
                    (l1 ++ l2 ++ [pid]) (ioQueue m),
                  completed_io_text pid))
     ∧ (l2 ≠ [] → l1 ++ l2 ++ [pid] ≠ readyQueue m)).
Proof.
  intros Hreach. apply reachable_wf in Hreach as Hwf.
  split_and!.
  - intros l1 l2. by apply completeIO_waiting.
  - intros Hnot. rewrite completeIO_queued by (intros c; by apply wf_io_live).
    rewrite bool_decide_eq_false_2 by done.
    rewrite filter_ne_absent, filter_eq_absent, app_nil_r by done.
    by destruct m.
  - intros l1 l2 Hsplit.
    pose proof (requestIO_ready m pid l1 l2 Hwf Hsplit) as Hreq. split.
    + eexists. split; [exact Hreq|].
      assert (Hwf1 : wf (mkManager (pidCounter m) (root m) (processMap m)
                           (l1 ++ l2) (ioQueue m ++ [pid]))).
      { eapply wf_requestIO; [exact Hwf|exact Hreq]. }
      rewrite (completeIO_waiting _ pid (ioQueue m) [] Hwf1) by done. simpl.
      by rewrite app_nil_r, <- app_assoc.
    + intros Hne. rewrite Hsplit. apply moved_to_tail_differs; [|done].
      pose proof (wf_nodup m Hwf) as Hnd. apply NoDup_app in Hnd as [Hnd _].
      rewrite Hsplit in Hnd. by apply NoDup_split_absent in Hnd as [_ ?].
Qed.

Lemma completeIO_spec_witness :
  reachable example_state
  ∧ reachable busy_state
  ∧ completeIO 2 example_state
    = Done (mkManager 3 (Some 1) (processMap example_state) [1; 2] [],
            completed_io_text 2)
  ∧ completeIO 1 example_state = Done (example_state, not_in_io_text)
  ∧ completeIO 7 example_state = Done (example_state, not_in_io_text)
  ∧ (∃ m1,
       requestIO 1 busy_state = Done (m1, moved_to_io_text 1)
       ∧ completeIO 1 m1
         = Done (mkManager 4 (Some 1) (processMap busy_state) [2; 3; 1] [],
                 completed_io_text 1))
  ∧ [2; 3; 1] ≠ readyQueue busy_state.
Proof.
  pose proof (completeIO_spec example_state 2 example_state_reachable)
    as (Hmove & _).
  pose proof (completeIO_spec example_state 1 example_state_reachable)
    as (_ & Hready & _).
  pose proof (completeIO_spec example_state 7 example_state_reachable)
    as (_ & Habsent & _).
  pose proof (completeIO_spec busy_state 1 busy_state_reachable)
    as (_ & _ & Hround).
  destruct (Hround [] [2; 3] eq_refl) as [Htail Horder].
  split_and!.
  - apply example_state_reachable.
  - apply busy_state_reachable.
  - apply (Hmove [] []). reflexivity.
  - apply Hready. intros Hin. apply list_elem_of_singleton in Hin. discriminate.
  - apply Habsent. intros Hin. apply list_elem_of_singleton in Hin. discriminate.
  - exact Htail.
  - apply Horder. discriminate.
Defined.

(** ** Identifiers *)






(** Identifiers are not reused after a termination. *)
Example identifiers_after_terminate :
  create_outputs
    (run 0 [Create "a" (-1); Create "b" 1; Terminate 2; Create "c" 1;
            Terminate 1; Create "d" (-1)] initial).1
  = [created_text 1; created_text 2; created_text 3; created_text 4].
Proof. vm_compute. reflexivity. Qed.

(** ** showState *)

Lemma wf_displayQueue m q :
  wf m → q ⊆ readyQueue m ++ ioQueue m →
  ∃ s, displayQueue (processMap m) q = Done s.
Proof.
  intros Hwf Hsub. apply displayQueue_total.
  intros c Hc. by apply (wf_queued m Hwf), Hsub.
Qed.

Lemma wf_displayHierarchy m r fuel indent :
  wf m → root m = Some r → (Z.to_nat (pidCounter m) ≤ fuel)%nat →
  ∃ s, Process.displayHierarchy fuel (processMap m) r indent = Done s.
Proof.
  intros Hwf Hroot Hfuel.
  pose proof (wf_root m Hwf r Hroot) as Hlive.
  apply (displayHierarchy_total (processMap m) (pidCounter m)); [| |done|].
  - intros k [obj Hobj]. apply (wf_keys m Hwf) in Hobj. lia.
  - intros k obj c Hobj Hc.
    destruct (wf_children m Hwf k obj c Hobj Hc) as (Hlt & cobj & Hcobj & _).
    eauto.
  - destruct Hlive as [obj Hobj]. apply (wf_keys m Hwf) in Hobj. lia.
Qed.



(** The scenario of the specification: after the root is terminated the
    report shows process 2 in the ready queue and no tree. *)
Example showState_scenario :
  run 0 [Create "init" (-1); Create "child" 1; RequestIO 2; CompleteIO 2;
         Terminate 1; ShowState] initial
  = ([(Create "init" (-1), created_text 1);
      (Create "child" 1, created_text 2);
      (RequestIO 2, moved_to_io_text 2);
      (CompleteIO 2, completed_io_text 2);
      (Terminate 1, terminated_text 1);
      (ShowState,
       report ("PID: 2, Name: child" +:+ endl) "" no_processes_text)],
     Done orphan_state).
Proof. vm_compute. reflexivity. Qed.

Lemma showState_total m :
  wf m →
  ∃ out, ∀ fuel, (Z.to_nat (pidCounter m) ≤ fuel)%nat →
    showState fuel m = Done (m, out).
Proof.
  intros Hwf.
  destruct (wf_displayQueue m (readyQueue m) Hwf) as [ready Hready].
  { intros c Hc. apply elem_of_app. by left. }
  destruct (wf_displayQueue m (ioQueue m) Hwf) as [io Hio].
  { intros c Hc. apply elem_of_app. by right. }
  destruct (root m) as [r|] eqn:Hroot.
  - destruct (wf_displayHierarchy m r (Z.to_nat (pidCounter m)) "" Hwf Hroot)
      as [tree Htree]; [done|].
    exists (report ready io tree). intros fuel Hfuel.
    unfold showState. rewrite Hready, Hio, Hroot.
    by rewrite (displayHierarchy_mono _ _ fuel _ _ _ Hfuel Htree).
  - exists (report ready io no_processes_text). intros fuel _.
    unfold showState. by rewrite Hready, Hio, Hroot.
Qed.

(** C9: [showState] is read-only.  In a reachable registry it returns, with
    one and the same report for every recursion bound of at least
    [pidCounter], and the registry it leaves is the one it was given: both
    queues, the store, the root and the counter are unchanged. *)
Theorem showState_read_only m :
  reachable m →
  (∃ out, ∀ fuel, (Z.to_nat (pidCounter m) ≤ fuel)%nat →
     showState fuel m = Done (m, out))
  ∧ (∀ fuel m' out, showState fuel m = Done (m', out) →
     m' = m
     ∧ readyQueue m' = readyQueue m ∧ ioQueue m' = ioQueue m
     ∧ processMap m' = processMap m ∧ root m' = root m
     ∧ pidCounter m' = pidCounter m).
Proof.
  intros Hreach. apply reachable_wf in Hreach as Hwf. split.
  - by apply showState_total.
  - intros fuel m' out Hshow. by rewrite (showState_state _ _ _ _ Hshow).
Qed.

Lemma showState_read_only_witness :
  reachable example_state
  ∧ (∃ out, ∀ fuel, (Z.to_nat (pidCounter example_state) ≤ fuel)%nat →
       showState fuel example_state = Done (example_state, out))
  ∧ (∀ fuel m' out, showState fuel example_state = Done (m', out) →
       m' = example_state
       ∧ readyQueue m' = readyQueue example_state
       ∧ ioQueue m' = ioQueue example_state
       ∧ processMap m' = processMap example_state
       ∧ root m' = root example_state
       ∧ pidCounter m' = pidCounter example_state).
Proof.
  split; [apply example_state_reachable|].
  apply (showState_read_only example_state). apply example_state_reachable.
Defined.

(** The report for the example registry. *)
Example showState_example :
  showState 3 example_state
  = Done (example_state,
          report ("PID: 1, Name: init" +:+ endl)
                 ("PID: 2, Name: child" +:+ endl)
                 ("PID: 1, Name: init" +:+ endl
                  +:+ "  PID: 2, Name: child" +:+ endl)).
Proof. vm_compute. reflexivity. Qed.

(** ** callFunction *)

(** C10: on a live process, [callFunction pid funcName] returns, pushes
    [funcName] on the call stack of that process and changes nothing else:
    the other fields of the process, every other process, both queues, the
    root and the counter are as before. *)
Theorem callFunction_frame m pid funcName obj :
  processMap m !! pid = Some obj →
  ∃ m',
    callFunction pid funcName m = Done (m', called_text pid funcName)
    ∧ processMap m'
      = <[pid := Process.mk (Process.pid obj) (Process.name obj)
                   (Process.parent obj) (Process.children obj)
                   (funcName :: Process.callStack obj)]> (processMap m)
    ∧ (∀ k, k ≠ pid → processMap m' !! k = processMap m !! k)
    ∧ readyQueue m' = readyQueue m
    ∧ ioQueue m' = ioQueue m
    ∧ root m' = root m
    ∧ pidCounter m' = pidCounter m.
Proof.
  intros Hobj. unfold callFunction. rewrite Hobj.
  eexists. split; [reflexivity|]. simpl. split_and!; try done.
  - by rewrite <- (insert_as_alter _ (Process.pushCall funcName) _ _ Hobj).
  - intros k Hne. by rewrite lookup_alter_ne.
Qed.

Lemma callFunction_frame_witness :
  processMap example_state !! 2 = Some (Process.mk 2 "child" (Some 1) [] [])
  ∧ ∃ m',
      callFunction 2 "main" example_state = Done (m', called_text 2 "main")
      ∧ processMap m' !! 2
        = Some (Process.mk 2 "child" (Some 1) [] ["main"])
      ∧ processMap m' !! 1 = processMap example_state !! 1
      ∧ readyQueue m' = [1] ∧ ioQueue m' = [2]
      ∧ root m' = Some 1 ∧ pidCounter m' = 3.
Proof.
  split; [reflexivity|].
  destruct (callFunction_frame example_state 2 "main"
              (Process.mk 2 "child" (Some 1) [] []) eq_refl)
    as (m' & Hrun & Hmap & Hother & Hready & Hio & Hroot & Hcnt).
  exists m'. split; [exact Hrun|].
  rewrite Hmap, Hready, Hio, Hroot, Hcnt. rewrite <- Hmap.
  split_and!; try reflexivity.
  - rewrite Hmap. reflexivity.
  - apply Hother. discriminate.
Defined.

(** ** terminateProcess when the parent pointer is valid *)

(** X3: in a reachable registry, terminating a live process whose parent pointer
    is null or points to a live process removes it from the queue that holds
    it, from its parent's children, from the root designation and from the
    store; its own children keep their entries.  Terminating it again
    reports "not found" and changes nothing. *)
Lemma terminateProcess_valid_parent m pid obj :
  reachable m →
  processMap m !! pid = Some obj →
  parent_valid (processMap m) obj →
  ∃ m',
    terminateProcess pid m = Done (m', terminated_text pid)
    ∧ processMap m' !! pid = None
    ∧ readyQueue m' = filter (λ c, c ≠ pid) (readyQueue m)
    ∧ ioQueue m' = filter (λ c, c ≠ pid) (ioQueue m)
    ∧ (pid ∉ readyQueue m → readyQueue m' = readyQueue m)
    ∧ (pid ∉ ioQueue m → ioQueue m' = ioQueue m)
    ∧ (pid ∉ readyQueue m') ∧ (pid ∉ ioQueue m')
    ∧ (∀ pp pobj, Process.parent obj = Some pp →
         processMap m !! pp = Some pobj →
         processMap m' !! pp = Some (Process.eraseChild pid pobj))
    ∧ (∀ k, k ≠ pid → Process.parent obj ≠ Some k →
         processMap m' !! k = processMap m !! k)
    ∧ root m' = (if decide (root m = Some pid) then None else root m)
    ∧ pidCounter m' = pidCounter m
    ∧ terminateProcess pid m' = Done (m', not_found_text).
Proof.
  intros Hreach Hobj Hpar. apply reachable_wf in Hreach as Hwf.
  rewrite (terminateProcess_live _ _ _ Hobj Hpar).
  eexists. split; [reflexivity|]. simpl.
  assert (Hgone : terminated_heap pid obj (processMap m) !! pid = None).
  { unfold terminated_heap. apply lookup_delete_eq. }
  split_and!; try done.
  - apply filter_ne_absent.
  - apply filter_ne_absent.
  - intros Hin. by apply list_elem_of_filter in Hin as [? _].
  - intros Hin. by apply list_elem_of_filter in Hin as [? _].
  - intros pp pobj Hpp Hpobj. unfold terminated_heap. rewrite Hpp.
    assert (pp ≠ pid).
    { pose proof (wf_parent m Hwf pid obj pp Hobj Hpp). lia. }
    rewrite lookup_delete_ne by done. by rewrite lookup_alter_eq, Hpobj.
  - intros k Hne Hnp. unfold terminated_heap. rewrite lookup_delete_ne by done.
    destruct (Process.parent obj) as [pp|]; [|done].
    rewrite lookup_alter_ne; [done|congruence].
  - apply terminateProcess_absent. exact Hgone.
Qed.

(** ** Where an operation can fail to return *)


(** * Further properties of the registry *)

Lemma forest_state_reachable : reachable forest_state.
Proof. reach_by forest_ops. Qed.

(** ** How one operation changes the store *)

(** What a returning operation does to the entry of [k]: a live process
    either stays, with the same identifier, name and parent pointer and a
    call stack that extends the old one, or is the process being
    terminated; an absent key stays absent unless it is the counter value
    taken by a creation.  The counter never decreases. *)
Lemma step_lookup fuel op m m' out k :
  wf m → step fuel op m = Done (m', out) →
  match processMap m !! k with
  | Some obj =>
      (processMap m' !! k = None ∧ op = Terminate k)
      ∨ (∃ obj', processMap m' !! k = Some obj'
           ∧ Process.pid obj' = Process.pid obj
           ∧ Process.name obj' = Process.name obj
           ∧ Process.parent obj' = Process.parent obj
           ∧ Process.callStack obj `suffix_of` Process.callStack obj')
  | None =>
      processMap m' !! k = None
      ∨ (k = pidCounter m ∧ ∃ name parentPID, op = Create name parentPID)
  end
  ∧ pidCounter m ≤ pidCounter m'.
Proof.
  intros Hwf Hstep.
  assert (Hsame : processMap m' = processMap m → pidCounter m' = pidCounter m →
    match processMap m !! k with
    | Some obj =>
        (processMap m' !! k = None ∧ op = Terminate k)
        ∨ (∃ obj', processMap m' !! k = Some obj'
             ∧ Process.pid obj' = Process.pid obj
             ∧ Process.name obj' = Process.name obj
             ∧ Process.parent obj' = Process.parent obj
             ∧ Process.callStack obj `suffix_of` Process.callStack obj')
    | None =>
        processMap m' !! k = None
        ∨ (k = pidCounter m ∧ ∃ name parentPID, op = Create name parentPID)
    end
    ∧ pidCounter m ≤ pidCounter m').
  { intros -> ->. split; [|lia].
    destruct (processMap m !! k) as [obj|] eqn:Hk; [|by left].
    right. by exists obj. }
  destruct op as [name parentPID|pid funcName|pid|pid|pid|]; simpl in Hstep.
  - pose proof (createProcess_Done_inv _ _ _ _ _ Hstep) as Hmax.
    pose proof (wf_fresh m Hwf) as Hfresh.
    assert (Hcases : ∃ f : Process.t → Process.t, ∃ proc hp,
      processMap m' = <[pidCounter m := proc]> (alter f hp (processMap m))
      ∧ pidCounter m' = pidCounter m + 1
      ∧ ∀ o, Process.pid (f o) = Process.pid o
          ∧ Process.name (f o) = Process.name o
          ∧ Process.parent (f o) = Process.parent o
          ∧ Process.callStack (f o) = Process.callStack o).
    { destruct (processMap m !! parentPID) as [pobj|] eqn:Hpobj.
      - assert (parentPID ≠ -1).
        { intros ->. apply (wf_keys m Hwf) in Hpobj. lia. }
        rewrite (createProcess_with_parent _ _ _ pobj) in Hstep by done.
        injection Hstep as <- <-. simpl.
        exists (Process.addChild (pidCounter m)). eauto 10.
      - rewrite createProcess_orphan in Hstep by auto.
        injection Hstep as <- <-. simpl.
        exists id, (Process.mk (pidCounter m) name None [] []), 0.
        split_and!; [|done|intros o; by split_and!].
        by rewrite alter_id. }
    destruct Hcases as (f & proc & hp & -> & -> & Hf). split; [|lia].
    destruct (processMap m !! k) as [obj|] eqn:Hk.
    + right. assert (pidCounter m ≠ k) by congruence.
      rewrite lookup_insert_ne by done.
      destruct (Hf obj) as (? & ? & ? & Hcs).
      destruct (decide (hp = k)) as [->|].
      * rewrite lookup_alter_eq, Hk. simpl. eexists. split; [done|].
        split_and!; try done. by rewrite Hcs.
      * rewrite lookup_alter_ne, Hk by done. exists obj. by split_and!.
    + destruct (decide (pidCounter m = k)) as [<-|]; [right; eauto|].
      left. rewrite lookup_insert_ne by done.
      destruct (decide (hp = k)) as [->|].
      * by rewrite lookup_alter_eq, Hk.
      * by rewrite lookup_alter_ne.
  - unfold callFunction in Hstep.
    destruct (processMap m !! pid) as [pobj|] eqn:Hpid;
      injection Hstep as <- <-; [|by apply Hsame].
    simpl. split; [|lia].
    destruct (processMap m !! k) as [obj|] eqn:Hk.
    + right. destruct (decide (pid = k)) as [->|].
      * rewrite lookup_alter_eq, Hk. simpl. eexists. split; [done|].
        split_and!; try done. simpl. by apply suffix_cons_r.
      * rewrite lookup_alter_ne, Hk by done. exists obj. by split_and!.
    + left. destruct (decide (pid = k)) as [->|].
      * by rewrite lookup_alter_eq, Hk.
      * by rewrite lookup_alter_ne.
  - destruct (processMap m !! pid) as [pobj|] eqn:Hpid.
    + rewrite requestIO_live in Hstep by eauto.
      injection Hstep as <- <-. by apply Hsame.
    + rewrite requestIO_absent in Hstep by done.
      injection Hstep as <- <-. by apply Hsame.
  - rewrite completeIO_queued in Hstep by (intros c; by apply wf_io_live).
    injection Hstep as <- <-. by apply Hsame.
  - destruct (processMap m !! pid) as [pobj|] eqn:Hpid; cycle 1.
    { rewrite terminateProcess_absent in Hstep by done.
      injection Hstep as <- <-. by apply Hsame. }
    pose proof (terminateProcess_Done_inv _ _ _ _ _ Hpid Hstep) as Hpar.
    rewrite (terminateProcess_live _ _ _ Hpid Hpar) in Hstep.
    injection Hstep as <- <-. simpl. split; [|lia]. unfold terminated_heap.
    destruct (decide (pid = k)) as [->|Hne].
    + rewrite Hpid, lookup_delete_eq. by left.
    + rewrite lookup_delete_ne by done.
      destruct (Process.parent pobj) as [pp|];
        [|destruct (processMap m !! k) as [obj|] eqn:Hk;
            [right; exists obj; by split_and!|by left]].
      destruct (processMap m !! k) as [obj|] eqn:Hk.
      * right. destruct (decide (pp = k)) as [->|].
        -- rewrite lookup_alter_eq, Hk. simpl. eexists. split; [done|].
           by split_and!.
        -- rewrite lookup_alter_ne, Hk by done. exists obj. by split_and!.
      * left. destruct (decide (pp = k)) as [->|].
        -- by rewrite lookup_alter_eq, Hk.
        -- by rewrite lookup_alter_ne.
  - apply showState_state in Hstep. subst m'. by apply Hsame.
Qed.

Lemma run_cons_inv fuel op ops m tr m' :
  run fuel (op :: ops) m = (tr, Done m') →
  ∃ m1 out tr1,
    step fuel op m = Done (m1, out)
    ∧ run fuel ops m1 = (tr1, Done m')
    ∧ tr = (op, out) :: tr1.
Proof.
  cbn [run]. destruct (step fuel op m) as [[m1 out]| |] eqn:Hstep; [|done..].
  destruct (run fuel ops m1) as [tr1 r1] eqn:Hrun. intros [= <- ->].
  exists m1, out, tr1. by rewrite Hrun.
Qed.

(** The run-level form of [step_lookup]. *)
Lemma run_lookup fuel ops m tr m' k :
  wf m → run fuel ops m = (tr, Done m') →
  pidCounter m ≤ pidCounter m'
  ∧ match processMap m !! k with
    | Some obj =>
        processMap m' !! k = None
        ∨ (∃ obj', processMap m' !! k = Some obj'
             ∧ Process.pid obj' = Process.pid obj
             ∧ Process.name obj' = Process.name obj
             ∧ Process.parent obj' = Process.parent obj
             ∧ Process.callStack obj `suffix_of` Process.callStack obj')
    | None => k < pidCounter m → processMap m' !! k = None
    end.
Proof.
  revert m tr. induction ops as [|op ops IH]; intros m tr Hwf Hrun.
  - injection Hrun as _ <-. split; [lia|].
    destruct (processMap m !! k) as [obj|] eqn:Hk; [|done].
    right. by exists obj.
  - apply run_cons_inv in Hrun as (m1 & out & tr1 & Hstep & Hrun & _).
    pose proof (wf_step _ _ _ _ _ Hwf Hstep) as Hwf1.
    destruct (IH m1 tr1 Hwf1 Hrun) as [Hcnt1 Hk1].
    destruct (step_lookup _ _ _ _ _ k Hwf Hstep) as [Hk Hcnt].
    split; [lia|].
    destruct (processMap m !! k) as [obj|] eqn:Hobj.
    + assert (Hlt : k < pidCounter m1).
      { apply (wf_keys m Hwf) in Hobj. lia. }
      destruct Hk as [[Hnone _]|(obj1 & Hobj1 & Hp & Hn & Hpa & Hcs)].
      * left. rewrite Hnone in Hk1. by apply Hk1.
      * rewrite Hobj1 in Hk1.
        destruct Hk1 as [?|(obj' & Hobj' & Hp' & Hn' & Hpa' & Hcs')]; [by left|].
        right. exists obj'. split_and!; [done|congruence..|by etrans].
    + intros Hlt. destruct Hk as [Hnone|[-> _]]; [|lia].
      rewrite Hnone in Hk1. apply Hk1. lia.
Qed.

(** ** Identifiers and process data over a run *)



(** X6: a process that is live before and after a run has kept its identifier,
    its name and its parent pointer, and its call stack has only grown: the
    old stack is a suffix of the new one.  No operation renames or
    re-parents a process or pops a call. *)
Theorem process_data_stable fuel ops m tr m' k obj obj' :
  reachable m →
  run fuel ops m = (tr, Done m') →
  processMap m !! k = Some obj →
  processMap m' !! k = Some obj' →
  Process.pid obj' = Process.pid obj
  ∧ Process.name obj' = Process.name obj
  ∧ Process.parent obj' = Process.parent obj
  ∧ Process.callStack obj `suffix_of` Process.callStack obj'.
Proof.
  intros Hwf%reachable_wf Hrun Hobj Hobj'.
  destruct (run_lookup _ _ _ _ _ k Hwf Hrun) as [_ Hk].
  rewrite Hobj in Hk. destruct Hk as [Hnone|(o & Ho & Hrest)]; [congruence|].
  by simplify_eq.
Qed.

Lemma process_data_stable_witness :
  reachable forest_state
  ∧ ∃ tr m',
      run 0 [Call 4 "read"; RequestIO 4; Terminate 3; Call 4 "parse"]
        forest_state = (tr, Done m')
      ∧ processMap forest_state !! 4
        = Some (Process.mk 4 "d" (Some 2) [] ["main"])
      ∧ processMap m' !! 4
        = Some (Process.mk 4 "d" (Some 2) [] ["parse"; "read"; "main"])
      ∧ ["main"] `suffix_of` ["parse"; "read"; "main"].
Proof.
  split; [apply forest_state_reachable|].
  destruct (run 0 [Call 4 "read"; RequestIO 4; Terminate 3; Call 4 "parse"]
              forest_state) as [tr r] eqn:Hrun.
  assert (Hr : ∃ m', r = Done m'
    ∧ processMap m' !! 4
      = Some (Process.mk 4 "d" (Some 2) [] ["parse"; "read"; "main"])).
  { vm_compute in Hrun. injection Hrun as _ <-. eexists. split; reflexivity. }
  destruct Hr as (m' & -> & Hobj').
  exists tr, m'. split_and!; [reflexivity|reflexivity|exact Hobj'|].
  apply (process_data_stable 0 _ forest_state tr m' 4
           (Process.mk 4 "d" (Some 2) [] ["main"])
           (Process.mk 4 "d" (Some 2) [] ["parse"; "read"; "main"])
           forest_state_reachable Hrun eq_refl Hobj').
Defined.

(** ** Orphans *)




(** ** Creating and terminating *)

(** X5: terminating the process that was just created undoes the creation
    except for the counter: the store (including the child list of the
    parent), the root and both queues are as before. *)
Theorem create_then_terminate name parentPID m :
  reachable m →
  pidCounter m < INT_MAX →
  ∃ m1,
    createProcess name parentPID m = Done (m1, created_text (pidCounter m))
    ∧ terminateProcess (pidCounter m) m1
      = Done (mkManager (pidCounter m + 1) (root m) (processMap m)
                (readyQueue m) (ioQueue m),
              terminated_text (pidCounter m)).
Proof.
  intros Hwf%reachable_wf Hlt.
  assert (Hmax : pidCounter m ≠ INT_MAX) by lia.
  pose proof (wf_fresh m Hwf) as Hfresh.
  pose proof (wf_fresh_queue m Hwf) as Hq.
  apply not_elem_of_app in Hq as [Hqr Hqi].
  assert (Hroot : root m ≠ Some (pidCounter m)).
  { intros Hr. apply (wf_root m Hwf) in Hr as [o Ho]. congruence. }
  assert (Hqueues :
    filter (λ c, c ≠ pidCounter m) (readyQueue m ++ [pidCounter m])
    = readyQueue m
    ∧ filter (λ c, c ≠ pidCounter m) (ioQueue m) = ioQueue m).
  { split; [|by apply filter_ne_absent].
    rewrite <- (app_nil_r (readyQueue m)) at 2.
    rewrite <- (app_nil_l [pidCounter m]) at 1.
    replace (readyQueue m ++ [] ++ [pidCounter m])
      with (readyQueue m ++ pidCounter m :: []) by done.
    apply filter_ne_split; [done|apply not_elem_of_nil]. }
  destruct Hqueues as [Hfr Hfi].
  destruct (processMap m !! parentPID) as [pobj|] eqn:Hpobj.
  - assert (Hne : parentPID ≠ -1).
    { intros ->. apply (wf_keys m Hwf) in Hpobj. lia. }
    assert (Hppc : parentPID ≠ pidCounter m) by congruence.
    rewrite (createProcess_with_parent _ _ _ pobj) by done.
    eexists. split; [reflexivity|].
    erewrite terminateProcess_live; cycle 1.
    { simpl. apply lookup_insert_eq. }
    { intros pp [= <-]. simpl.
      rewrite lookup_insert_ne, lookup_alter_eq, Hpobj by done. by eexists. }
    simpl. rewrite Hfr, Hfi. rewrite decide_False by done.
    do 3 f_equal. unfold terminated_heap. simpl.
    apply map_eq. intros j. destruct (decide (pidCounter m = j)) as [<-|Hj].
    { by rewrite lookup_delete_eq. }
    rewrite lookup_delete_ne by done.
    destruct (decide (parentPID = j)) as [<-|Hpj].
    + rewrite lookup_alter_eq, lookup_insert_ne, lookup_alter_eq, Hpobj by done.
      simpl. f_equal. destruct pobj as [ppid pname ppar pch pcs].
      unfold Process.eraseChild, Process.addChild. simpl. f_equal.
      rewrite <- (app_nil_r pch) at 2.
      apply filter_ne_split; [|apply not_elem_of_nil].
      intros Hin.
      destruct (wf_children m Hwf parentPID _ _ Hpobj Hin)
        as (_ & cobj & Hcobj & _).
      congruence.
    + by rewrite lookup_alter_ne, lookup_insert_ne, lookup_alter_ne by done.
  - rewrite createProcess_orphan by auto.
    eexists. split; [reflexivity|].
    erewrite terminateProcess_live; cycle 1.
    { simpl. apply lookup_insert_eq. }
    { intros pp. simpl. done. }
    simpl. rewrite Hfr, Hfi. unfold terminated_heap. simpl.
    rewrite delete_insert_eq, (delete_id _ _ Hfresh).
    do 3 f_equal. destruct (root m) as [r|] eqn:Hr.
    + by rewrite decide_False.
    + by rewrite decide_True.
Qed.

Lemma create_then_terminate_witness :
  reachable forest_state
  ∧ pidCounter forest_state < INT_MAX
  ∧ ∃ m1,
      createProcess "g" 2 forest_state = Done (m1, created_text 7)
      ∧ terminateProcess 7 m1
        = Done (mkManager 8 (Some 1) (processMap forest_state)
                  [1; 2; 4; 6] [3],
                terminated_text 7).
Proof.
  split_and!; [apply forest_state_reachable|done|].
  apply (create_then_terminate "g" 2 forest_state forest_state_reachable).
  done.
Defined.

(** ** The root designation *)

(** X10: the root designation changes in two ways only: it is cleared when the
    root itself is terminated, and it is set to the new process by a
    creation that resolves no parent while there is no root.  In particular
    no child is promoted when the root is terminated. *)
Theorem root_changes fuel op m m' out :
  reachable m →
  step fuel op m = Done (m', out) →
  root m' = root m
  ∨ (∃ r, op = Terminate r ∧ root m = Some r ∧ root m' = None)
  ∨ (∃ name parentPID,
       op = Create name parentPID
       ∧ root m = None
       ∧ processMap m !! parentPID = None
       ∧ root m' = Some (pidCounter m)).
Proof.
  intros Hwf%reachable_wf Hstep.
  destruct op as [name parentPID|pid funcName|pid|pid|pid|]; simpl in Hstep.
  - pose proof (createProcess_Done_inv _ _ _ _ _ Hstep) as Hmax.
    destruct (processMap m !! parentPID) as [pobj|] eqn:Hpobj.
    + assert (parentPID ≠ -1).
      { intros ->. apply (wf_keys m Hwf) in Hpobj. lia. }
      rewrite (createProcess_with_parent _ _ _ pobj) in Hstep by done.
      injection Hstep as <- <-. by left.
    + rewrite createProcess_orphan in Hstep by auto.
      injection Hstep as <- <-. simpl.
      destruct (root m) as [r|] eqn:Hr; [by left|].
      right. right. by exists name, parentPID.
  - unfold callFunction in Hstep.
    destruct (processMap m !! pid); injection Hstep as <- <-; by left.
  - destruct (processMap m !! pid) as [pobj|] eqn:Hpid.
    + rewrite requestIO_live in Hstep by eauto.
      injection Hstep as <- <-. by left.
    + rewrite requestIO_absent in Hstep by done.
      injection Hstep as <- <-. by left.
  - rewrite completeIO_queued in Hstep by (intros c; by apply wf_io_live).
    injection Hstep as <- <-. by left.
  - destruct (processMap m !! pid) as [pobj|] eqn:Hpid; cycle 1.
    { rewrite terminateProcess_absent in Hstep by done.
      injection Hstep as <- <-. by left. }
    pose proof (terminateProcess_Done_inv _ _ _ _ _ Hpid Hstep) as Hpar.
    rewrite (terminateProcess_live _ _ _ Hpid Hpar) in Hstep.
    injection Hstep as <- <-. simpl.
    destruct (decide (root m = Some pid)) as [Hr|Hr]; [|by left].
    right. left. by exists pid.
  - apply showState_state in Hstep. subst m'. by left.
Qed.

Lemma root_changes_witness :
  reachable forest_state
  ∧ step 0 (Terminate 1) forest_state
    = Done (mkManager 7 None
              (delete 1 (processMap forest_state)) [2; 4; 6] [3],
            terminated_text 1)
  ∧ (None = root forest_state
     ∨ (∃ r, Terminate 1 = Terminate r ∧ root forest_state = Some r
          ∧ None = (None : option Z))
     ∨ (∃ name parentPID,
          Terminate 1 = Create name parentPID
          ∧ root forest_state = None
          ∧ processMap forest_state !! parentPID = None
          ∧ None = Some (pidCounter forest_state))).
Proof.
  assert (Hstep : step 0 (Terminate 1) forest_state
    = Done (mkManager 7 None
              (delete 1 (processMap forest_state)) [2; 4; 6] [3],
            terminated_text 1)).
  { vm_compute. reflexivity. }
  split_and!; [apply forest_state_reachable|exact Hstep|].
  apply (root_changes 0 (Terminate 1) forest_state _ _
           forest_state_reachable Hstep).
Defined.

(** ** Operations on an identifier that is not live *)

(** X9: in a reachable registry, for an identifier that is not in the store
    (never assigned, or terminated), [callFunction], [requestIO],
    [completeIO] and [terminateProcess] all return the registry unchanged
    and only report that the process was not found. *)
Theorem absent_pid_noop pid funcName m :
  reachable m →
  processMap m !! pid = None →
  callFunction pid funcName m = Done (m, not_found_text)
  ∧ requestIO pid m = Done (m, not_found_text)
  ∧ completeIO pid m = Done (m, not_in_io_text)
  ∧ terminateProcess pid m = Done (m, not_found_text).
Proof.
  intros Hwf%reachable_wf Hnone. split_and!.
  - unfold callFunction. by rewrite Hnone.
  - by apply requestIO_absent.
  - assert (Hnot : pid ∉ ioQueue m).
    { intros Hin. destruct (wf_io_live m pid Hwf Hin) as (o & Ho & _).
      congruence. }
    rewrite completeIO_queued by (intros c; by apply wf_io_live).
    rewrite bool_decide_eq_false_2 by done.
    rewrite filter_ne_absent, filter_eq_absent, app_nil_r by done.
    by destruct m.
  - by apply terminateProcess_absent.
Qed.

Lemma absent_pid_noop_witness :
  reachable forest_state
  ∧ processMap forest_state !! 5 = None
  ∧ callFunction 5 "main" forest_state = Done (forest_state, not_found_text)
  ∧ requestIO 5 forest_state = Done (forest_state, not_found_text)
  ∧ completeIO 5 forest_state = Done (forest_state, not_in_io_text)
  ∧ terminateProcess 5 forest_state = Done (forest_state, not_found_text).
Proof.
  split_and!; [apply forest_state_reachable|reflexivity|..];
    by apply (absent_pid_noop 5 "main" forest_state forest_state_reachable).
Defined.

(** ** removeFromQueue *)

(** X4: [removeFromQueue q p] keeps the members other than [p] in their order
    and drops every occurrence of [p]; it leaves a queue without [p] as it
    is, and removing twice is the same as removing once. *)
Theorem removeFromQueue_spec (q : list Z) (p : Z) :
  removeFromQueue q p = filter (λ c, c ≠ p) q
  ∧ (p ∉ removeFromQueue q p)
  ∧ (∀ c, c ≠ p → c ∈ removeFromQueue q p ↔ c ∈ q)
  ∧ removeFromQueue q p `sublist_of` q
  ∧ removeFromQueue (removeFromQueue q p) p = removeFromQueue q p
  ∧ (p ∉ q → removeFromQueue q p = q).
Proof.
  rewrite !removeFromQueue_filter. split_and!.
  - done.
  - intros Hin. by apply list_elem_of_filter in Hin as [? _].
  - intros c Hne. rewrite list_elem_of_filter. split; [by intros [_ ?]|done].
  - apply sublist_filter.
  - apply filter_ne_absent.
    intros Hin. by apply list_elem_of_filter in Hin as [? _].
  - apply filter_ne_absent.
Qed.

(** ** Identifiers of live processes *)

(** X15: in a reachable registry the process stored under [k] carries the
    identifier [k], which lies between 1 and the counter, and the counter
    has not passed [INT_MAX]: looking a process up by its identifier
    returns that process. *)
Theorem live_process_identity m k obj :
  reachable m →
  processMap m !! k = Some obj →
  Process.pid obj = k ∧ 1 ≤ k < pidCounter m ∧ pidCounter m ≤ INT_MAX.
Proof.
  intros Hwf%reachable_wf Hobj.
  destruct (wf_keys m Hwf k obj Hobj) as [Hpid Hrange].
  pose proof (wf_counter m Hwf). split_and!; [done|lia..].
Qed.

Lemma live_process_identity_witness :
  reachable forest_state
  ∧ processMap forest_state !! 4 = Some (Process.mk 4 "d" (Some 2) [] ["main"])
  ∧ Process.pid (Process.mk 4 "d" (Some 2) [] ["main"]) = 4
  ∧ 1 ≤ 4 < pidCounter forest_state
  ∧ pidCounter forest_state ≤ INT_MAX.
Proof.
  split_and!; [apply forest_state_reachable|reflexivity|..];
    by apply (live_process_identity forest_state 4
                (Process.mk 4 "d" (Some 2) [] ["main"])
                forest_state_reachable).
Defined.

(** ** The parent and child links agree *)

Lemma lookup_alter_inv (f : Process.t → Process.t) (heap : gmap Z Process.t)
    i k o :
  alter f i heap !! k = Some o →
  ∃ o0, heap !! k = Some o0 ∧ (o = o0 ∨ (i = k ∧ o = f o0)).
Proof.
  rewrite lookup_alter_Some.
  intros [(-> & o0 & Ho0 & ->)|[_ Ho]]; eauto.
Qed.

Lemma tree_wf_initial : tree_wf initial.
Proof.
  split; simpl; [done|..].
  - intros k obj Hk. by rewrite lookup_empty in Hk.
  - intros c cobj p pobj Hc. by rewrite lookup_empty in Hc.
Qed.

Lemma tree_wf_same m m' :
  root m' = root m → processMap m' = processMap m → tree_wf m → tree_wf m'.
Proof.
  intros Hr Hp [H1 H2 H3]. split; rewrite ?Hr, ?Hp; done.
Qed.

Lemma tree_wf_createProcess name parentPID m m' out :
  wf m → tree_wf m → createProcess name parentPID m = Done (m', out) →
  tree_wf m'.
Proof.
  intros Hwf [Hroot Hnd Hlist] Hcreate.
  pose proof (createProcess_Done_inv _ _ _ _ _ Hcreate) as Hmax.
  pose proof (wf_fresh m Hwf) as Hfresh.
  assert (Hnotparent : ∀ c cobj, processMap m !! c = Some cobj →
    Process.parent cobj ≠ Some (pidCounter m)).
  { intros c cobj Hc Hpar.
    pose proof (wf_parent m Hwf c cobj _ Hc Hpar).
    apply (wf_keys m Hwf) in Hc. lia. }
  destruct (processMap m !! parentPID) as [pobj|] eqn:Hpobj.
  - assert (Hm1 : parentPID ≠ -1).
    { intros ->. apply (wf_keys m Hwf) in Hpobj. lia. }
    assert (Hppc : parentPID ≠ pidCounter m) by congruence.
    rewrite (createProcess_with_parent _ _ _ pobj) in Hcreate by done.
    injection Hcreate as <- <-.
    assert (Hnew : pidCounter m ∉ Process.children pobj).
    { intros Hin.
      destruct (wf_children m Hwf _ _ _ Hpobj Hin) as (_ & cobj & Hcobj & _).
      congruence. }
    split; simpl.
    + intros r Hr. destruct (Hroot r Hr) as (obj & Hobj & Hpar).
      rewrite lookup_insert_ne by congruence.
      destruct (decide (parentPID = r)) as [->|].
      * rewrite lookup_alter_eq, Hobj. simpl. eauto.
      * rewrite lookup_alter_ne by done. eauto.
    + intros k obj. rewrite lookup_insert_Some.
      intros [[<- <-]|[Hne Hobj]]; [constructor|].
      apply lookup_alter_inv in Hobj as (o0 & Ho0 & [->|[<- ->]]);
        [by eapply Hnd|].
      simpl. apply NoDup_app. split_and!.
      * by eapply Hnd.
      * intros x Hx ->%list_elem_of_singleton. by simplify_eq.
      * apply NoDup_singleton.
    + intros c cobj p pobj0. rewrite !lookup_insert_Some.
      intros [[<- <-]|[Hc Hcobj]] Hpar [[<- <-]|[Hp Hpobj0]].
      * simpl in Hpar. congruence.
      * simpl in Hpar. injection Hpar as <-.
        rewrite lookup_alter_eq, Hpobj in Hpobj0. injection Hpobj0 as <-.
        simpl. apply elem_of_app. right. by apply list_elem_of_singleton.
      * apply lookup_alter_inv in Hcobj as (c0 & Hc0 & Hcase).
        assert (Process.parent c0 = Some (pidCounter m)).
        { destruct Hcase as [->|[_ ->]]; done. }
        by destruct (Hnotparent c c0).
      * apply lookup_alter_inv in Hcobj as (c0 & Hc0 & Hcase).
        assert (Hpar0 : Process.parent c0 = Some p).
        { destruct Hcase as [->|[_ ->]]; done. }
        apply lookup_alter_inv in Hpobj0 as (p0 & Hp0 & Hcasep).
        pose proof (Hlist c c0 p p0 Hc0 Hpar0 Hp0) as Hin.
        destruct Hcasep as [->|[_ ->]]; [done|].
        simpl. apply elem_of_app. by left.
  - rewrite createProcess_orphan in Hcreate by auto.
    injection Hcreate as <- <-. split; simpl.
    + intros r Hr. destruct (root m) as [r0|] eqn:Hr0.
      * injection Hr as <-. destruct (Hroot r0 eq_refl) as (obj & Hobj & Hpar).
        rewrite lookup_insert_ne by congruence. eauto.
      * injection Hr as <-. rewrite lookup_insert_eq. eauto.
    + intros k obj. rewrite lookup_insert_Some.
      intros [[<- <-]|[Hne Hobj]]; [constructor|by eapply Hnd].
    + intros c cobj p pobj0. rewrite !lookup_insert_Some.
      intros [[<- <-]|[Hc Hcobj]] Hpar [[<- <-]|[Hp Hpobj0]].
      * done.
      * done.
      * by destruct (Hnotparent c cobj).
      * by eapply Hlist.
Qed.

Lemma tree_wf_callFunction pid funcName m m' out :
  tree_wf m → callFunction pid funcName m = Done (m', out) → tree_wf m'.
Proof.
  intros [Hroot Hnd Hlist]. unfold callFunction.
  destruct (processMap m !! pid) as [obj|] eqn:Hobj; intros [= <- <-];
    [|by split].
  split; simpl.
  - intros r Hr. destruct (Hroot r Hr) as (o & Ho & Hpar).
    destruct (decide (pid = r)) as [->|].
    + rewrite lookup_alter_eq, Ho. simpl. eauto.
    + rewrite lookup_alter_ne by done. eauto.
  - intros k o Ho. apply lookup_alter_inv in Ho as (o0 & Ho0 & [->|[_ ->]]);
      exact (Hnd _ _ Ho0).
  - intros c cobj p pobj Hc Hpar Hp.
    apply lookup_alter_inv in Hc as (c0 & Hc0 & Hcase).
    assert (Hpar0 : Process.parent c0 = Some p).
    { destruct Hcase as [->|[_ ->]]; done. }
    apply lookup_alter_inv in Hp as (p0 & Hp0 & Hcasep).
    pose proof (Hlist c c0 p p0 Hc0 Hpar0 Hp0).
    destruct Hcasep as [->|[_ ->]]; done.
Qed.

Lemma tree_wf_terminateProcess pid m m' out :
  tree_wf m → terminateProcess pid m = Done (m', out) → tree_wf m'.
Proof.
  intros [Hroot Hnd Hlist] Hterm.
  destruct (processMap m !! pid) as [obj|] eqn:Hobj; cycle 1.
  { rewrite terminateProcess_absent in Hterm by done.
    injection Hterm as <- <-. by split. }
  pose proof (terminateProcess_Done_inv _ _ _ _ _ Hobj Hterm) as Hpar.
  rewrite (terminateProcess_live _ _ _ Hobj Hpar) in Hterm.
  injection Hterm as <- <-.
  assert (Hlook : ∀ k o, terminated_heap pid obj (processMap m) !! k = Some o →
    k ≠ pid ∧ ∃ o0, processMap m !! k = Some o0
      ∧ Process.parent o = Process.parent o0
      ∧ Process.children o `sublist_of` Process.children o0
      ∧ ∀ c, c ≠ pid → c ∈ Process.children o0 → c ∈ Process.children o).
  { intros k o. unfold terminated_heap. rewrite lookup_delete_Some.
    intros [Hne Hko]. split; [done|].
    destruct (Process.parent obj) as [pp|]; [|by exists o].
    apply lookup_alter_inv in Hko as (o0 & Ho0 & [->|[_ ->]]);
      exists o0; split_and!; try done.
    - apply sublist_filter.
    - intros c Hc Hin. simpl. by apply list_elem_of_filter. }
  split; simpl.
  - intros r. destruct (decide (root m = Some pid)) as [|Hne]; [done|].
    intros Hr. destruct (Hroot r Hr) as (o0 & Ho0 & Hpar0).
    unfold terminated_heap. rewrite lookup_delete_ne by congruence.
    destruct (Process.parent obj) as [pp|]; [|eauto].
    destruct (decide (pp = r)) as [->|].
    + rewrite lookup_alter_eq, Ho0. simpl. eauto.
    + rewrite lookup_alter_ne by done. eauto.
  - intros k o Ho. destruct (Hlook k o Ho) as (_ & o0 & Ho0 & _ & Hsub & _).
    eapply sublist_NoDup; [by eapply Hnd|exact Hsub].
  - intros c cobj p pobj Hc Hcpar Hp.
    destruct (Hlook c cobj Hc) as (Hcne & c0 & Hc0 & Hpar0 & _).
    destruct (Hlook p pobj Hp) as (_ & p0 & Hp0 & _ & _ & Hkeep).
    apply Hkeep; [done|]. apply (Hlist c c0 p p0 Hc0); [congruence|exact Hp0].
Qed.

Lemma tree_wf_step fuel op m m' out :
  wf m → tree_wf m → step fuel op m = Done (m', out) → tree_wf m'.
Proof.
  intros Hwf Htree. destruct op as [name parentPID|pid funcName|pid|pid|pid|];
    simpl; intros Hstep.
  - by eapply tree_wf_createProcess.
  - by eapply tree_wf_callFunction.
  - destruct (processMap m !! pid) as [pobj|] eqn:Hpid.
    + rewrite requestIO_live in Hstep by eauto.
      injection Hstep as <- <-. by apply (tree_wf_same m).
    + rewrite requestIO_absent in Hstep by done. by injection Hstep as <- <-.
  - rewrite completeIO_queued in Hstep by (intros c; by apply wf_io_live).
    injection Hstep as <- <-. by apply (tree_wf_same m).
  - by eapply tree_wf_terminateProcess.
  - apply showState_state in Hstep. by subst m'.
Qed.

Lemma reachable_tree_wf m : reachable m → tree_wf m.
Proof.
  induction 1 as [|fuel op m m' out Hreach IH Hstep]; [apply tree_wf_initial|].
  eapply tree_wf_step; [by apply reachable_wf|done..].
Qed.

(** X11: in a reachable registry the root has no parent; the child list of a
    live process names no process twice and holds exactly the live
    processes whose parent pointer is that process; and a parent is always
    older than its child. *)
Theorem parent_child_links m :
  reachable m →
  (∀ r, root m = Some r →
     ∃ obj, processMap m !! r = Some obj ∧ Process.parent obj = None)
  ∧ (∀ p pobj, processMap m !! p = Some pobj →
       NoDup (Process.children pobj)
       ∧ ∀ c, c ∈ Process.children pobj
              ↔ ∃ cobj, processMap m !! c = Some cobj
                  ∧ Process.parent cobj = Some p)
  ∧ (∀ k obj pp, processMap m !! k = Some obj →
       Process.parent obj = Some pp → pp < k).
Proof.
  intros Hreach. pose proof (reachable_wf m Hreach) as Hwf.
  pose proof (reachable_tree_wf m Hreach) as Htree. split_and!.
  - apply (tree_root m Htree).
  - intros p pobj Hp. split; [by apply (tree_nodup m Htree p)|].
    intros c. split.
    + intros Hc. by destruct (wf_children m Hwf p pobj c Hp Hc) as [_ ?].
    + intros (cobj & Hc & Hpar). by apply (tree_listed m Htree c cobj p pobj).
  - apply (wf_parent m Hwf).
Qed.

Lemma parent_child_links_witness :
  reachable forest_state
  ∧ (∃ obj, processMap forest_state !! 1 = Some obj
       ∧ Process.parent obj = None)
  ∧ NoDup [2; 3]
  ∧ (3 ∈ [2; 3]
     ↔ ∃ cobj, processMap forest_state !! 3 = Some cobj
         ∧ Process.parent cobj = Some 1)
  ∧ 5 < 6.
Proof.
  destruct (parent_child_links forest_state forest_state_reachable)
    as (Hroot & Hchildren & Hparent).
  destruct (Hchildren 1 (Process.mk 1 "a" None [2; 3] []) eq_refl)
    as [Hnd Hiff].
  split_and!.
  - apply forest_state_reachable.
  - by apply Hroot.
  - exact Hnd.
  - apply Hiff.
  - by apply (Hparent 6 (Process.mk 6 "f" (Some 5) [] []) 5).
Defined.

(** ** displayHierarchy prints a pre-order traversal *)

Lemma string_app_assoc (a b c : string) : (a +:+ b) +:+ c = a +:+ (b +:+ c).
Proof.
  induction a as [|x a IH]; [done|].
  change (String x ((a +:+ b) +:+ c) = String x (a +:+ (b +:+ c))).
  by rewrite IH.
Qed.

Lemma render_app l1 l2 : render (l1 ++ l2) = render l1 +:+ render l2.
Proof.
  induction l1 as [|e l1 IH]; simpl; [done|].
  by rewrite IH, !string_app_assoc.
Qed.

Section collect.
Context {A : Type} (f : Z → outcome (list A)).

Lemma collect_children_cons_inv c cs l :
  collect_children f (c :: cs) = Done l →
  ∃ l1 l2, f c = Done l1 ∧ collect_children f cs = Done l2 ∧ l = l1 ++ l2.
Proof.
  unfold collect_children. cbn [foldr]. fold (collect_children f cs).
  destruct (f c) as [l1| |]; [|done..]. cbn [mbind outcome_bind].
  destruct (collect_children f cs) as [l2| |]; [|done..].
  intros [= <-]. by exists l1, l2.
Qed.

Lemma collect_children_elem cs l e :
  collect_children f cs = Done l → e ∈ l →
  ∃ c lc, c ∈ cs ∧ f c = Done lc ∧ e ∈ lc.
Proof.
  revert l. induction cs as [|c cs IH]; intros l Hl He.
  - injection Hl as <-. by apply elem_of_nil in He.
  - apply collect_children_cons_inv in Hl as (l1 & l2 & Hc & Hcs & ->).
    apply elem_of_app in He as [He|He].
    + exists c, l1. split_and!; [apply list_elem_of_here|done..].
    + destruct (IH l2 Hcs He) as (c' & lc & Hin & Hfc & Hlc).
      exists c', lc. split_and!; [by apply list_elem_of_further|done..].
Qed.

Lemma collect_children_incl cs l c lc e :
  collect_children f cs = Done l → c ∈ cs → f c = Done lc → e ∈ lc → e ∈ l.
Proof.
  revert l. induction cs as [|c0 cs IH]; intros l Hl Hc Hfc He.
  - by apply elem_of_nil in Hc.
  - apply collect_children_cons_inv in Hl as (l1 & l2 & Hc0 & Hcs & ->).
    apply elem_of_app. apply elem_of_cons in Hc as [->|Hc].
    + left. congruence.
    + right. by eapply IH.
Qed.

Lemma collect_children_NoDup (g : A → Z) cs l :
  collect_children f cs = Done l →
  NoDup cs →
  (∀ c lc, c ∈ cs → f c = Done lc → NoDup (g <$> lc)) →
  (∀ c c' lc lc' x, c ∈ cs → c' ∈ cs → c ≠ c' →
     f c = Done lc → f c' = Done lc' →
     x ∈ g <$> lc → x ∉ g <$> lc') →
  NoDup (g <$> l).
Proof.
  revert l. induction cs as [|c cs IH]; intros l Hl Hnd Heach Hdisj.
  - injection Hl as <-. constructor.
  - apply collect_children_cons_inv in Hl as (l1 & l2 & Hc & Hcs & ->).
    apply NoDup_cons in Hnd as [Hc_cs Hnd].
    rewrite fmap_app. apply NoDup_app. split_and!.
    + apply (Heach c); [apply list_elem_of_here|done].
    + intros x Hx1 Hx2. apply list_elem_of_fmap in Hx2 as (e & -> & He).
      destruct (collect_children_elem cs l2 e Hcs He)
        as (c' & lc' & Hc' & Hfc' & Hlc').
      apply (Hdisj c c' l1 lc' (g e)); try done.
      * apply list_elem_of_here.
      * by apply list_elem_of_further.
      * by intros ->.
      * apply list_elem_of_fmap. by exists e.
    + apply IH; [done..| |].
      * intros c0 lc Hc0. apply Heach. by apply list_elem_of_further.
      * intros c0 c1 lc0 lc1 x Hc0 Hc1. apply Hdisj;
          by apply list_elem_of_further.
Qed.

End collect.

Lemma display_preorder (heap : gmap Z Process.t) fuel p d :
  Process.displayHierarchy fuel heap p (pad d)
  = (l ← preorder fuel heap p d; Done (render l)).
Proof.
  revert p d. induction fuel as [|fuel IH]; intros p d; [done|].
  rewrite displayHierarchy_unfold. cbn [preorder].
  destruct (heap !! p) as [obj|]; [|done].
  assert (Hcs : ∀ cs,
    Process.concat_children
      (λ c, Process.displayHierarchy fuel heap c (pad d +:+ "  ")) cs
    = (l ← collect_children (λ c, preorder fuel heap c (S d)) cs;
       Done (render l))).
  { induction cs as [|c cs IHcs]; [done|].
    unfold Process.concat_children, collect_children. cbn [foldr].
    fold (Process.concat_children
            (λ c, Process.displayHierarchy fuel heap c (pad d +:+ "  ")) cs).
    fold (collect_children (λ c, preorder fuel heap c (S d)) cs).
    rewrite IHcs. change (pad d +:+ "  ") with (pad (S d)). rewrite IH.
    destruct (preorder fuel heap c (S d)) as [l1| |]; [|done..].
    cbn [mbind outcome_bind].
    destruct (collect_children _ cs) as [l2| |]; [|done..].
    cbn [mbind outcome_bind]. by rewrite render_app. }
  rewrite Hcs.
  destruct (collect_children _ (Process.children obj)) as [rest| |]; done.
Qed.

Section traversal.
Context (heap : gmap Z Process.t).
Hypothesis Hkeys : ∀ k o, heap !! k = Some o → Process.pid o = k.
Hypothesis Hchildren : ∀ k o c,
  heap !! k = Some o → c ∈ Process.children o →
  k < c ∧ ∃ co, heap !! c = Some co ∧ Process.parent co = Some k.
Hypothesis Hparent : ∀ k o pp,
  heap !! k = Some o → Process.parent o = Some pp → pp < k.
Hypothesis Hnodup : ∀ k o, heap !! k = Some o → NoDup (Process.children o).
Hypothesis Hlisted : ∀ c co p po,
  heap !! c = Some co → Process.parent co = Some p → heap !! p = Some po →
  c ∈ Process.children po.

Lemma descends_trans a b x :
  descends heap a b → descends heap b x → descends heap a x.
Proof.
  intros Hab Hbx. induction Hbx as [|x obj y Hx Hpar _ IH]; [done|].
  by eapply descends_child.
Qed.

Lemma descends_le a x : descends heap a x → a ≤ x.
Proof.
  induction 1 as [|x obj y Hx Hpar _ IH]; [done|].
  pose proof (Hparent x obj y Hx Hpar). lia.
Qed.

Lemma descends_chain a b x :
  descends heap a x → descends heap b x →
  descends heap a b ∨ descends heap b a.
Proof.
  intros Ha. revert b. induction Ha as [|x obj y Hx Hpar Hay IH]; intros b Hb.
  - by right.
  - inversion Hb as [|x' obj' y' Hx' Hpar' Hby]; subst.
    + left. by eapply descends_child.
    + assert (y' = y) as -> by congruence. by apply IH.
Qed.

Lemma descends_live a x :
  descends heap a x → is_Some (heap !! a) → is_Some (heap !! x).
Proof. destruct 1; eauto. Qed.

(** Two distinct children of one process have no common descendant. *)
Lemma siblings_disjoint p po c c' x :
  heap !! p = Some po → c ∈ Process.children po → c' ∈ Process.children po →
  c ≠ c' → descends heap c x → descends heap c' x → False.
Proof.
  intros Hp Hc Hc' Hne Hcx Hc'x.
  destruct (Hchildren p po c Hp Hc) as (Hlt & co & Hco & Hcpar).
  destruct (Hchildren p po c' Hp Hc') as (Hlt' & co' & Hco' & Hc'par).
  assert (Hup : ∀ a b bo, heap !! b = Some bo → Process.parent bo = Some p →
    p < a → a ≠ b → ¬ descends heap a b).
  { intros a b bo Hb Hbpar Hpa Hab Hdesc.
    inversion Hdesc as [|b' bo' y Hb' Hbpar' Hay]; subst; [done|].
    assert (y = p) as -> by congruence.
    apply descends_le in Hay. lia. }
  destruct (descends_chain c c' x Hcx Hc'x) as [Hd|Hd].
  - by apply (Hup c c' co' Hco' Hc'par Hlt Hne).
  - by apply (Hup c' c co Hco Hcpar Hlt').
Qed.

Lemma preorder_sound fuel p d l e :
  preorder fuel heap p d = Done l → e ∈ l →
  heap !! Process.pid e.2 = Some e.2 ∧ descends heap p (Process.pid e.2).
Proof.
  revert p d l e. induction fuel as [|fuel IH]; intros p d l e; [done|].
  cbn [preorder]. destruct (heap !! p) as [obj|] eqn:Hp; [|done].
  destruct (collect_children _ (Process.children obj)) as [rest| |] eqn:Hrest;
    [|done..].
  intros [= <-] [->|He]%elem_of_cons.
  - simpl. rewrite (Hkeys p obj Hp). split; [done|constructor].
  - destruct (collect_children_elem _ _ _ _ Hrest He)
      as (c & lc & Hc & Hlc & Helc).
    destruct (IH c (S d) lc e Hlc Helc) as [Hlive Hdesc]. split; [done|].
    destruct (Hchildren p obj c Hp Hc) as (_ & co & Hco & Hcpar).
    apply (descends_trans p c); [|done].
    eapply descends_child; [exact Hco|exact Hcpar|constructor].
Qed.

Lemma preorder_NoDup fuel p d l :
  preorder fuel heap p d = Done l → NoDup (visited_pids l).
Proof.
  revert p d l. induction fuel as [|fuel IH]; intros p d l; [done|].
  cbn [preorder]. destruct (heap !! p) as [obj|] eqn:Hp; [|done].
  destruct (collect_children _ (Process.children obj)) as [rest| |] eqn:Hrest;
    [|done..].
  intros [= <-]. unfold visited_pids. rewrite fmap_cons. simpl.
  apply NoDup_cons. split.
  - intros Hin. apply list_elem_of_fmap in Hin as (e & Hpe & He).
    destruct (collect_children_elem _ _ _ _ Hrest He)
      as (c & lc & Hc & Hlc & Helc).
    destruct (preorder_sound fuel c (S d) lc e Hlc Helc) as [_ Hdesc].
    apply descends_le in Hdesc.
    destruct (Hchildren p obj c Hp Hc) as [Hlt _].
    rewrite (Hkeys p obj Hp) in Hpe. lia.
  - apply (collect_children_NoDup _ _ _ _ Hrest).
    + by apply (Hnodup p).
    + intros c lc _. apply IH.
    + intros c c' lc lc' x Hc Hc' Hne Hlc Hlc' Hx Hx'.
      apply list_elem_of_fmap in Hx as (e & -> & He).
      apply list_elem_of_fmap in Hx' as (e' & Heq & He').
      destruct (preorder_sound fuel c (S d) lc e Hlc He) as [_ Hd].
      destruct (preorder_sound fuel c' (S d) lc' e' Hlc' He') as [_ Hd'].
      rewrite <- Heq in Hd'.
      by apply (siblings_disjoint p obj c c' (Process.pid e.2)).
Qed.

Lemma preorder_head fuel p d l :
  preorder fuel heap p d = Done l →
  ∃ obj rest, heap !! p = Some obj ∧ l = (d, obj) :: rest.
Proof.
  destruct fuel as [|fuel]; [done|]. cbn [preorder].
  destruct (heap !! p) as [obj|]; [|done].
  destruct (collect_children _ _) as [rest| |]; [|done..].
  intros [= <-]. by exists obj, rest.
Qed.

(** The children of a visited process are visited, one level deeper. *)
Lemma preorder_closed fuel p d l d' o c :
  preorder fuel heap p d = Done l → (d', o) ∈ l → c ∈ Process.children o →
  ∃ co, heap !! c = Some co ∧ (S d', co) ∈ l.
Proof.
  revert p d l. induction fuel as [|fuel IH]; intros p d l; [done|].
  cbn [preorder]. destruct (heap !! p) as [obj|] eqn:Hp; [|done].
  destruct (collect_children _ (Process.children obj)) as [rest| |] eqn:Hrest;
    [|done..].
  intros [= <-] [[= -> ->]|He]%elem_of_cons Hc.
  - assert (Hsub : ∃ lc, preorder fuel heap c (S d) = Done lc).
    { clear IH. revert rest Hrest Hc.
      generalize (Process.children obj) as cs.
      induction cs as [|c0 cs IHcs]; intros rest Hrest Hc.
      - by apply elem_of_nil in Hc.
      - apply collect_children_cons_inv in Hrest as (l1 & l2 & Hc0 & Hcs & _).
        apply elem_of_cons in Hc as [->|Hc]; [eauto|by eapply IHcs]. }
    destruct Hsub as [lc Hlc].
    destruct (preorder_head fuel c (S d) lc Hlc) as (co & lc' & Hco & ->).
    exists co. split; [done|]. apply list_elem_of_further.
    eapply collect_children_incl; [exact Hrest|exact Hc|exact Hlc|].
    apply list_elem_of_here.
  - destruct (collect_children_elem _ _ _ _ Hrest He)
      as (c0 & lc & Hc0 & Hlc & Helc).
    destruct (IH c0 (S d) lc Hlc Helc Hc) as (co & Hco & Hin).
    exists co. split; [done|]. apply list_elem_of_further.
    by eapply collect_children_incl.
Qed.

Lemma preorder_complete fuel p d l x :
  preorder fuel heap p d = Done l → descends heap p x →
  x ∈ visited_pids l.
Proof.
  intros Hl Hdesc. induction Hdesc as [|x obj y Hx Hpar Hy IH].
  - destruct (preorder_head fuel p d l Hl) as (po & rest & Hp & ->).
    unfold visited_pids. rewrite fmap_cons. simpl.
    rewrite (Hkeys p po Hp). apply list_elem_of_here.
  - apply list_elem_of_fmap in IH as ([dy oy] & Hyeq & Hin).
    destruct (preorder_sound fuel p d l _ Hl Hin) as [Hoy _].
    simpl in Hyeq, Hoy. rewrite <- Hyeq in Hoy.
    pose proof (Hlisted x obj y oy Hx Hpar Hoy) as Hc.
    destruct (preorder_closed fuel p d l dy oy x Hl Hin Hc) as (co & Hco & Hin').
    apply list_elem_of_fmap. exists (S dy, co). split; [|done].
    simpl. symmetry. by apply Hkeys.
Qed.

End traversal.

Lemma wf_preorder m r fuel :
  wf m → root m = Some r → (Z.to_nat (pidCounter m) ≤ fuel)%nat →
  ∃ l, preorder fuel (processMap m) r 0 = Done l
    ∧ Process.displayHierarchy fuel (processMap m) r "" = Done (render l).
Proof.
  intros Hwf Hroot Hfuel.
  destruct (wf_displayHierarchy m r fuel "" Hwf Hroot Hfuel) as [s Hs].
  pose proof (display_preorder (processMap m) fuel r 0) as Heq.
  change (pad 0) with "" in Heq. rewrite Hs in Heq.
  destruct (preorder fuel (processMap m) r 0) as [l| |]; [|done..].
  exists l. split; [done|]. by rewrite Hs, Heq.
Qed.

(** X12: in a reachable registry with a root, the tree printed by [showState]
    is one line per visited process, indented by two spaces per level, for
    a list of visited processes that starts with the root at depth 0, names
    no process twice, holds only live processes, holds the children of each
    listed process one level deeper, and holds exactly the processes from
    which the parent pointers lead to the root.  *)
Theorem hierarchy_is_preorder m r fuel :
  reachable m →
  root m = Some r →
  (Z.to_nat (pidCounter m) ≤ fuel)%nat →
  ∃ robj rest,
    let l := (0%nat, robj) :: rest in
    processMap m !! r = Some robj
    ∧ preorder fuel (processMap m) r 0 = Done l
    ∧ Process.displayHierarchy fuel (processMap m) r "" = Done (render l)
    ∧ NoDup (visited_pids l)
    ∧ (∀ d o, (d, o) ∈ l → processMap m !! Process.pid o = Some o)
    ∧ (∀ d o c, (d, o) ∈ l → c ∈ Process.children o →
         ∃ co, processMap m !! c = Some co ∧ (S d, co) ∈ l)
    ∧ (∀ k, k ∈ visited_pids l ↔ descends (processMap m) r k).
Proof.
  intros Hreach Hroot Hfuel.
  pose proof (reachable_wf m Hreach) as Hwf.
  pose proof (reachable_tree_wf m Hreach) as Htree.
  destruct (wf_preorder m r fuel Hwf Hroot Hfuel) as (l & Hl & Hshow).
  destruct (preorder_head _ fuel r 0%nat l Hl) as (robj & rest & Hr & ->).
  assert (Hkeys : ∀ k o, processMap m !! k = Some o → Process.pid o = k).
  { intros k o Ho. by apply (wf_keys m Hwf). }
  exists robj, rest. cbv zeta. split_and!; [done..| | | |].
  - eapply preorder_NoDup; [exact Hkeys|apply (wf_children m Hwf)
      |apply (wf_parent m Hwf)|apply (tree_nodup m Htree)|exact Hl].
  - intros d o Hin.
    by destruct (preorder_sound _ Hkeys (wf_children m Hwf) fuel r 0%nat _
                   (d, o) Hl Hin).
  - intros d o c. by apply (preorder_closed (processMap m) fuel r 0%nat).
  - intros k. split.
    + intros Hin. apply list_elem_of_fmap in Hin as (e & -> & He).
      by destruct (preorder_sound _ Hkeys (wf_children m Hwf) fuel r 0%nat _
                     e Hl He).
    + intros Hdesc.
      eapply preorder_complete; [exact Hkeys|apply (wf_children m Hwf)
        |apply (tree_listed m Htree)|exact Hl|exact Hdesc].
Qed.

(** The tree of the example registry: the orphan 6 is not printed. *)
Example forest_hierarchy :
  Process.displayHierarchy 7 (processMap forest_state) 1 ""
  = Done ("PID: 1, Name: a" +:+ endl
          +:+ "  PID: 2, Name: b" +:+ endl
          +:+ "    PID: 4, Name: d" +:+ endl
          +:+ "  PID: 3, Name: c" +:+ endl).
Proof. vm_compute. reflexivity. Qed.

Lemma hierarchy_is_preorder_witness :
  reachable forest_state
  ∧ root forest_state = Some 1
  ∧ (Z.to_nat (pidCounter forest_state) ≤ 7)%nat
  ∧ (∃ robj rest,
       let l := (0%nat, robj) :: rest in
       processMap forest_state !! 1 = Some robj
       ∧ preorder 7 (processMap forest_state) 1 0 = Done l
       ∧ Process.displayHierarchy 7 (processMap forest_state) 1 ""
         = Done (render l)
       ∧ NoDup (visited_pids l)
       ∧ (∀ d o, (d, o) ∈ l →
            processMap forest_state !! Process.pid o = Some o)
       ∧ (∀ d o c, (d, o) ∈ l → c ∈ Process.children o →
            ∃ co, processMap forest_state !! c = Some co ∧ (S d, co) ∈ l)
       ∧ (∀ k, k ∈ visited_pids l
               ↔ descends (processMap forest_state) 1 k))
  ∧ ¬ descends (processMap forest_state) 1 6.
Proof.
  assert (Hfuel : (Z.to_nat (pidCounter forest_state) ≤ 7)%nat).
  { cbn. lia. }
  pose proof (hierarchy_is_preorder forest_state 1 7
                forest_state_reachable eq_refl Hfuel) as Hthm.
  split_and!; [apply forest_state_reachable|reflexivity|exact Hfuel
              |exact Hthm|].
  destruct Hthm as (robj & rest & _ & Hl & _ & _ & _ & _ & Hiff).
  intros Hdesc. apply Hiff in Hdesc.
  vm_compute in Hl. injection Hl as <- <-.
  unfold visited_pids in Hdesc. simpl in Hdesc.
  repeat (apply elem_of_cons in Hdesc as [Hdesc|Hdesc]; [discriminate|]).
  by apply elem_of_nil in Hdesc.
Defined.

(** ** The report of showState *)

Lemma displayQueue_text (heap : gmap Z Process.t) (q : list Z) :
  (∀ c, c ∈ q → is_Some (heap !! c)) →
  displayQueue heap q = Done (queue_text heap q).
Proof.
  unfold displayQueue. induction q as [|c q IH]; intros Hq; [done|].
  destruct (Hq c) as [obj Hobj]; [apply list_elem_of_here|].
  cbn [displayQueue_loop queue_text foldr]. fold (queue_text heap q).
  unfold deref. rewrite Hobj. cbn [mbind outcome_bind from_option].
  assert (Hrest : displayQueue_loop heap q ≫= (λ r, Done r.2)
                  = Done (queue_text heap q)).
  { apply IH. intros c' Hc'. apply Hq. by apply list_elem_of_further. }
  destruct (displayQueue_loop heap q) as [[q1 s1]| |]; [|done..].
  simpl in Hrest. injection Hrest as ->. done.
Qed.

(** X13: in a reachable registry [showState] returns, for every recursion bound
    of at least [pidCounter], the report made of one line per member of the
    ready queue in queue order, one line per member of the I/O queue in
    queue order, and either the rendering of the pre-order traversal from
    the root or, without a root, the line "(No processes created yet)";
    every queue member is a live process, so none of the lines is
    missing. *)
Theorem showState_report m fuel :
  reachable m →
  (Z.to_nat (pidCounter m) ≤ fuel)%nat →
  ∃ tree,
    showState fuel m
    = Done (m, report (queue_text (processMap m) (readyQueue m))
                 (queue_text (processMap m) (ioQueue m)) tree)
    ∧ (∀ p, p ∈ readyQueue m ++ ioQueue m → is_Some (processMap m !! p))
    ∧ match root m with
      | Some r =>
          ∃ l, preorder fuel (processMap m) r 0 = Done l ∧ tree = render l
      | None => tree = no_processes_text
      end.
Proof.
  intros Hwf%reachable_wf Hfuel.
  assert (Hlive : ∀ p, p ∈ readyQueue m ++ ioQueue m →
    is_Some (processMap m !! p)).
  { intros p. apply (wf_queued m Hwf). }
  assert (Hready : displayQueue (processMap m) (readyQueue m)
                   = Done (queue_text (processMap m) (readyQueue m))).
  { apply displayQueue_text. intros c Hc. apply Hlive, elem_of_app. by left. }
  assert (Hio : displayQueue (processMap m) (ioQueue m)
                = Done (queue_text (processMap m) (ioQueue m))).
  { apply displayQueue_text. intros c Hc. apply Hlive, elem_of_app. by right. }
  unfold showState. rewrite Hready, Hio. cbn [mbind outcome_bind].
  destruct (root m) as [r|] eqn:Hroot.
  - destruct (wf_preorder m r fuel Hwf Hroot Hfuel) as (l & Hl & Hshow).
    exists (render l). rewrite Hshow. split_and!; [done..|]. by exists l.
  - by exists no_processes_text.
Qed.

Lemma showState_report_witness :
  reachable forest_state
  ∧ (Z.to_nat (pidCounter forest_state) ≤ 7)%nat
  ∧ showState 7 forest_state
    = Done (forest_state,
            report ("PID: 1, Name: a" +:+ endl
                    +:+ "PID: 2, Name: b" +:+ endl
                    +:+ "PID: 4, Name: d" +:+ endl
                    +:+ "PID: 6, Name: f" +:+ endl)
                   ("PID: 3, Name: c" +:+ endl)
                   ("PID: 1, Name: a" +:+ endl
                    +:+ "  PID: 2, Name: b" +:+ endl
                    +:+ "    PID: 4, Name: d" +:+ endl
                    +:+ "  PID: 3, Name: c" +:+ endl)).
Proof.
  assert (Hfuel : (Z.to_nat (pidCounter forest_state) ≤ 7)%nat).
  { cbn. lia. }
  split_and!; [apply forest_state_reachable|exact Hfuel|].
  destruct (showState_report forest_state 7 forest_state_reachable Hfuel)
    as (tree & Hshow & _ & l & Hl & ->).
  rewrite Hshow. vm_compute in Hl. injection Hl as <-.
  vm_compute. reflexivity.
Defined.

(** ** Witnesses for the pointer and progress lemmas *)

Lemma reachable_pointers_live_witness :
  reachable forest_state
  ∧ (∀ p, p ∈ readyQueue forest_state ++ ioQueue forest_state →
       is_Some (processMap forest_state !! p))
  ∧ (∀ r, root forest_state = Some r →
       is_Some (processMap forest_state !! r))
  ∧ (∀ k obj c, processMap forest_state !! k = Some obj →
       c ∈ Process.children obj → is_Some (processMap forest_state !! c)).
Proof.
  split; [apply forest_state_reachable|].
  apply (reachable_pointers_live forest_state forest_state_reachable).
Defined.


Lemma terminateProcess_valid_parent_witness :
  reachable forest_state
  ∧ processMap forest_state !! 4 = Some (Process.mk 4 "d" (Some 2) [] ["main"])
  ∧ parent_valid (processMap forest_state)
      (Process.mk 4 "d" (Some 2) [] ["main"])
  ∧ ∃ m',
      terminateProcess 4 forest_state = Done (m', terminated_text 4)
      ∧ processMap m' !! 4 = None
      ∧ processMap m' !! 2 = Some (Process.mk 2 "b" (Some 1) [] [])
      ∧ readyQueue m' = [1; 2; 6]
      ∧ ioQueue m' = [3]
      ∧ root m' = Some 1
      ∧ terminateProcess 4 m' = Done (m', not_found_text).
Proof.
  assert (Hpar : parent_valid (processMap forest_state)
                   (Process.mk 4 "d" (Some 2) [] ["main"])).
  { intros pp [= <-]. by eexists. }
  split_and!; [apply forest_state_reachable|reflexivity|exact Hpar|].
  destruct (terminateProcess_valid_parent forest_state 4
              (Process.mk 4 "d" (Some 2) [] ["main"])
              forest_state_reachable eq_refl Hpar)
    as (m' & Hrun & Hgone & Hready & _ & _ & Hio & _ & _ & Hparent & _
        & Hroot & _ & Hagain).
  exists m'. split_and!; [exact Hrun|exact Hgone| | | | |exact Hagain].
  - apply (Hparent 2 (Process.mk 2 "b" (Some 1) [4] [])); reflexivity.
  - rewrite Hready. reflexivity.
  - apply Hio. intros Hin. apply list_elem_of_singleton in Hin. discriminate.
  - rewrite Hroot. reflexivity.
Defined.

(** ** The queues are first-in first-out *)

Section fifo.
Implicit Types (l : list Z) (x p : Z).

Lemma filter_ext_in (P Q : Z → Prop) `{∀ x, Decision (P x)}
    `{∀ x, Decision (Q x)} l :
  (∀ x, x ∈ l → P x ↔ Q x) → filter P l = filter Q l.
Proof.
  induction l as [|x l IH]; intros Hext; [done|].
  rewrite !filter_cons.
  assert (Hl : filter P l = filter Q l).
  { apply IH. intros y Hy. apply Hext. by apply list_elem_of_further. }
  destruct (decide (P x)) as [HP|HP], (decide (Q x)) as [HQ|HQ];
    rewrite ?Hl; try done.
  - destruct HQ. apply (Hext x); [apply list_elem_of_here|done].
  - destruct HP. apply (Hext x); [apply list_elem_of_here|done].
Qed.

Lemma filter_all (P : Z → Prop) `{∀ x, Decision (P x)} l :
  (∀ x, x ∈ l → P x) → filter P l = l.
Proof.
  induction l as [|x l IH]; intros HP; [done|].
  rewrite filter_cons_True by (apply HP, list_elem_of_here).
  f_equal. apply IH. intros y Hy. apply HP. by apply list_elem_of_further.
Qed.

Lemma filter_none (P : Z → Prop) `{∀ x, Decision (P x)} l :
  (∀ x, x ∈ l → ¬ P x) → filter P l = [].
Proof.
  induction l as [|x l IH]; intros HP; [done|].
  rewrite filter_cons_False by (apply HP, list_elem_of_here).
  apply IH. intros y Hy. apply HP. by apply list_elem_of_further.
Qed.

Lemma fifo_update_same l : fifo_update l l.
Proof.
  unfold fifo_update. rewrite filter_all by done.
  rewrite filter_none by (intros x Hx Hnot; done). by rewrite app_nil_r.
Qed.

Lemma fifo_update_push l x : x ∉ l → fifo_update l (l ++ [x]).
Proof.
  intros Hx. unfold fifo_update. rewrite filter_all.
  - f_equal. rewrite filter_app, filter_none by (intros y Hy Hnot; done).
    by rewrite filter_cons_True.
  - intros y Hy. apply elem_of_app. by left.
Qed.

Lemma fifo_update_remove l p : fifo_update l (filter (λ c, c ≠ p) l).
Proof.
  unfold fifo_update.
  rewrite (filter_none (λ c, c ∉ l)).
  - rewrite app_nil_r. apply filter_ext_in. intros x Hx.
    rewrite list_elem_of_filter. split; [by intros ?|by intros [? _]].
  - intros x Hx Hnot. by apply list_elem_of_filter in Hx as [_ ?].
Qed.

End fifo.

(** X14: every returning operation on a reachable registry leaves each queue
    first-in first-out: the members that stay keep their relative order,
    and the members that enter are placed behind all of them. *)
Theorem queues_stay_fifo fuel op m m' out :
  reachable m →
  step fuel op m = Done (m', out) →
  readyQueue m'
  = filter (λ c, c ∈ readyQueue m') (readyQueue m)
    ++ filter (λ c, c ∉ readyQueue m) (readyQueue m')
  ∧ ioQueue m'
    = filter (λ c, c ∈ ioQueue m') (ioQueue m)
      ++ filter (λ c, c ∉ ioQueue m) (ioQueue m').
Proof.
  intros Hwf%reachable_wf Hstep.
  change (fifo_update (readyQueue m) (readyQueue m')
          ∧ fifo_update (ioQueue m) (ioQueue m')).
  pose proof (wf_nodup m Hwf) as Hnd.
  apply NoDup_app in Hnd as (Hndr & Hdisj & Hndi).
  destruct op as [name parentPID|pid funcName|pid|pid|pid|]; simpl in Hstep.
  - pose proof (createProcess_Done_inv _ _ _ _ _ Hstep) as Hmax.
    pose proof (wf_fresh_queue m Hwf) as Hq.
    apply not_elem_of_app in Hq as [Hqr _].
    destruct (processMap m !! parentPID) as [pobj|] eqn:Hpobj.
    + assert (parentPID ≠ -1).
      { intros ->. apply (wf_keys m Hwf) in Hpobj. lia. }
      rewrite (createProcess_with_parent _ _ _ pobj) in Hstep by done.
      injection Hstep as <- <-. simpl.
      split; [by apply fifo_update_push|apply fifo_update_same].
    + rewrite createProcess_orphan in Hstep by auto.
      injection Hstep as <- <-. simpl.
      split; [by apply fifo_update_push|apply fifo_update_same].
  - unfold callFunction in Hstep.
    destruct (processMap m !! pid); injection Hstep as <- <-;
      split; apply fifo_update_same.
  - destruct (processMap m !! pid) as [pobj|] eqn:Hpid; cycle 1.
    { rewrite requestIO_absent in Hstep by done.
      injection Hstep as <- <-. split; apply fifo_update_same. }
    rewrite requestIO_live in Hstep by eauto.
    injection Hstep as <- <-. simpl. split; [apply fifo_update_remove|].
    destruct (decide (pid ∈ readyQueue m)) as [Hin|Hnot].
    + apply list_elem_of_split in Hin as (l1 & l2 & Hsplit).
      rewrite Hsplit in Hndr |- *.
      apply NoDup_split_absent in Hndr as [H1 H2].
      rewrite filter_eq_split by done. apply fifo_update_push.
      apply Hdisj. rewrite Hsplit. apply elem_of_app. right.
      apply list_elem_of_here.
    + rewrite filter_eq_absent, app_nil_r by done. apply fifo_update_same.
  - rewrite completeIO_queued in Hstep by (intros c; by apply wf_io_live).
    injection Hstep as <- <-. simpl. split; [|apply fifo_update_remove].
    destruct (decide (pid ∈ ioQueue m)) as [Hin|Hnot].
    + assert (Hnr : pid ∉ readyQueue m).
      { intros Hr. by apply (Hdisj pid). }
      apply list_elem_of_split in Hin as (l1 & l2 & Hsplit).
      rewrite Hsplit in Hndi |- *.
      apply NoDup_split_absent in Hndi as [H1 H2].
      rewrite filter_eq_split by done. by apply fifo_update_push.
    + rewrite filter_eq_absent, app_nil_r by done. apply fifo_update_same.
  - destruct (processMap m !! pid) as [pobj|] eqn:Hpid; cycle 1.
    { rewrite terminateProcess_absent in Hstep by done.
      injection Hstep as <- <-. split; apply fifo_update_same. }
    pose proof (terminateProcess_Done_inv _ _ _ _ _ Hpid Hstep) as Hpar.
    rewrite (terminateProcess_live _ _ _ Hpid Hpar) in Hstep.
    injection Hstep as <- <-. simpl. split; apply fifo_update_remove.
  - apply showState_state in Hstep. subst m'. split; apply fifo_update_same.
Qed.

Lemma queues_stay_fifo_witness :
  reachable forest_state
  ∧ step 0 (CompleteIO 3) forest_state
    = Done (mkManager 7 (Some 1) (processMap forest_state) [1; 2; 4; 6; 3] [],
            completed_io_text 3)
  ∧ [1; 2; 4; 6; 3]
    = filter (λ c, c ∈ [1; 2; 4; 6; 3]) (readyQueue forest_state)
      ++ filter (λ c, c ∉ readyQueue forest_state) [1; 2; 4; 6; 3]
  ∧ [] = filter (λ c, c ∈ []) (ioQueue forest_state)
         ++ filter (λ c, c ∉ ioQueue forest_state) [].
Proof.
  assert (Hstep : step 0 (CompleteIO 3) forest_state
    = Done (mkManager 7 (Some 1) (processMap forest_state) [1; 2; 4; 6; 3] [],
            completed_io_text 3)).
  { vm_compute. reflexivity. }
  split_and!; [apply forest_state_reachable|exact Hstep|..];
    apply (queues_stay_fifo 0 (CompleteIO 3) forest_state _ _
             forest_state_reachable Hstep).
Defined.

(** ** The life cycle of a process *)

(** X16: a returning operation on a reachable registry moves a process
    between the queues only as follows: from ready to I/O only by
    [requestIO] of that process, from I/O to ready only by [completeIO] of
    that process, into a queue from outside only by a creation, which puts
    the new identifier in the ready queue, and out of the queues only by
    [terminateProcess] of that process. *)
Theorem queue_transitions fuel op m m' out k :
  reachable m →
  step fuel op m = Done (m', out) →
  (k ∈ readyQueue m → k ∈ ioQueue m' → op = RequestIO k)
  ∧ (k ∈ ioQueue m → k ∈ readyQueue m' → op = CompleteIO k)
  ∧ (k ∉ readyQueue m ++ ioQueue m → k ∈ readyQueue m' ++ ioQueue m' →
     (∃ name parentPID, op = Create name parentPID)
     ∧ k = pidCounter m ∧ k ∈ readyQueue m')
  ∧ (k ∈ readyQueue m ++ ioQueue m → k ∉ readyQueue m' ++ ioQueue m' →
     op = Terminate k).
Proof.
  intros Hwf%reachable_wf Hstep.
  pose proof (wf_nodup m Hwf) as Hnd.
  apply NoDup_app in Hnd as (_ & Hdisj & _).
  assert (Hd : k ∈ readyQueue m → k ∈ ioQueue m → False).
  { intros Hr Hi. by apply (Hdisj k). }
  assert (Hsame : readyQueue m' = readyQueue m → ioQueue m' = ioQueue m →
    (k ∈ readyQueue m → k ∈ ioQueue m' → op = RequestIO k)
    ∧ (k ∈ ioQueue m → k ∈ readyQueue m' → op = CompleteIO k)
    ∧ (k ∉ readyQueue m ++ ioQueue m → k ∈ readyQueue m' ++ ioQueue m' →
       (∃ name parentPID, op = Create name parentPID)
       ∧ k = pidCounter m ∧ k ∈ readyQueue m')
    ∧ (k ∈ readyQueue m ++ ioQueue m → k ∉ readyQueue m' ++ ioQueue m' →
       op = Terminate k)).
  { intros -> ->. split_and!; intros; by exfalso; auto. }
  destruct op as [name parentPID|pid funcName|pid|pid|pid|]; simpl in Hstep.
  - pose proof (createProcess_Done_inv _ _ _ _ _ Hstep) as Hmax.
    assert (Hq : readyQueue m' = readyQueue m ++ [pidCounter m]
                 ∧ ioQueue m' = ioQueue m).
    { destruct (processMap m !! parentPID) as [pobj|] eqn:Hpobj.
      - assert (parentPID ≠ -1).
        { intros ->. apply (wf_keys m Hwf) in Hpobj. lia. }
        rewrite (createProcess_with_parent _ _ _ pobj) in Hstep by done.
        by injection Hstep as <- <-.
      - rewrite createProcess_orphan in Hstep by auto.
        by injection Hstep as <- <-. }
    destruct Hq as [-> ->]. clear Hsame Hstep.
    rewrite !elem_of_app, !list_elem_of_singleton. split_and!.
    + intros Hr Hi. by destruct (Hd Hr Hi).
    + intros Hi [Hr| ->]; [by destruct (Hd Hr Hi)|].
      destruct (wf_fresh_queue m Hwf). apply elem_of_app. by right.
    + intros Hnot [[Hr|Heq]|Hi]; [destruct Hnot; by left| |destruct Hnot; by right].
      split_and!; [by exists name, parentPID|done|by right].
    + intros Hin Hnot. destruct Hnot. destruct Hin; [left; by left|by right].
  - unfold callFunction in Hstep.
    destruct (processMap m !! pid); injection Hstep as <- <-; by apply Hsame.
  - destruct (processMap m !! pid) as [pobj|] eqn:Hpid; cycle 1.
    { rewrite requestIO_absent in Hstep by done.
      injection Hstep as <- <-. by apply Hsame. }
    rewrite requestIO_live in Hstep by eauto.
    injection Hstep as <- <-. simpl. clear Hsame.
    rewrite !elem_of_app, !list_elem_of_filter. split_and!.
    + intros Hr [Hi|[-> _]]; [by destruct (Hd Hr Hi)|done].
    + intros Hi [_ Hr]. by destruct (Hd Hr Hi).
    + intros Hnot [[_ Hr]|[Hi|[_ Hr]]]; destruct Hnot; auto.
    + intros Hin Hnot. destruct Hnot.
      destruct Hin as [Hr|Hi]; [|by right; left].
      destruct (decide (k = pid)) as [->|Hne]; [right; right|left]; done.
  - rewrite completeIO_queued in Hstep by (intros c; by apply wf_io_live).
    injection Hstep as <- <-. simpl. clear Hsame.
    rewrite !elem_of_app, !list_elem_of_filter. split_and!.
    + intros Hr [_ Hi]. by destruct (Hd Hr Hi).
    + intros Hi [Hr|[-> _]]; [by destruct (Hd Hr Hi)|done].
    + intros Hnot [[Hr|[_ Hi]]|[_ Hi]]; destruct Hnot; auto.
    + intros Hin Hnot. destruct Hnot.
      destruct Hin as [Hr|Hi]; [by left; left|].
      destruct (decide (k = pid)) as [->|Hne]; [left; right|right]; done.
  - destruct (processMap m !! pid) as [pobj|] eqn:Hpid; cycle 1.
    { rewrite terminateProcess_absent in Hstep by done.
      injection Hstep as <- <-. by apply Hsame. }
    pose proof (terminateProcess_Done_inv _ _ _ _ _ Hpid Hstep) as Hpar.
    rewrite (terminateProcess_live _ _ _ Hpid Hpar) in Hstep.
    injection Hstep as <- <-. simpl. clear Hsame.
    rewrite !elem_of_app, !list_elem_of_filter. split_and!.
    + intros Hr [_ Hi]. by destruct (Hd Hr Hi).
    + intros Hi [_ Hr]. by destruct (Hd Hr Hi).
    + intros Hnot [[_ Hr]|[_ Hi]]; destruct Hnot; auto.
    + intros Hin Hnot. destruct (decide (k = pid)) as [->|Hne]; [done|].
      destruct Hnot. destruct Hin; [left|right]; done.
  - apply showState_state in Hstep. subst m'. by apply Hsame.
Qed.

Lemma queue_transitions_witness :
  reachable forest_state
  ∧ step 0 (CompleteIO 3) forest_state
    = Done (mkManager 7 (Some 1) (processMap forest_state) [1; 2; 4; 6; 3] [],
            completed_io_text 3)
  ∧ (3 ∈ ioQueue forest_state → 3 ∈ [1; 2; 4; 6; 3] →
     CompleteIO 3 = CompleteIO 3).
Proof.
  assert (Hstep : step 0 (CompleteIO 3) forest_state
    = Done (mkManager 7 (Some 1) (processMap forest_state) [1; 2; 4; 6; 3] [],
            completed_io_text 3)).
  { vm_compute. reflexivity. }
  split_and!; [apply forest_state_reachable|exact Hstep|].
  apply (queue_transitions 0 (CompleteIO 3) forest_state _ _ 3
           forest_state_reachable Hstep).
Defined.

(** ** The identifiers assigned over a sequence of operations *)













